(** * nbd_util.random: the [RNG] sampling helper

    A shallow embedding of [src/lib/nbd_util/random.py] and of the NumPy
    entry points it calls, with the properties of [RNG.uniform] and
    [RNG.sphere].

    The code is embedded three times.

    [RNG] computes with array values over exact arithmetic: a Python
    float is a real number of [R], and the one float that is not a
    number, NaN, is kept where the code can create it, at [np.arccos].
    It carries the properties of [sphere], whose [np.arccos], [np.pi]
    and coordinate conversion have no binary64 counterpart here.

    [B64] computes [uniform] as the machine does, in binary64: every
    operation rounds to the nearest double and [high - low] can
    overflow.  It carries the properties of [uniform] that rounding
    decides.

    [Mem] runs the statements of [RNG] over a store of buffers, where an
    array is a reference, so that allocation and sharing can be stated.
    [Mem] is proved to compute the values of [RNG]. *)

From Stdlib Require Import String Reals Lra Lia ZArith List Bool.
From Stdlib Require Floats Uint63.
Import ListNotations.

Open Scope R_scope.

(** ** The global generator of [np.random] *)

(** One output of the generator's [random_sample]: a number of the
    half-open unit interval. *)
Record unit_draw : Type := mk_unit_draw {
  draw_val :> R;
  draw_range : 0 <= draw_val < 1
}.

(** The state of the process-wide [RandomState]: the sequence of unit
    draws it is going to produce (any sequence: nothing is assumed of the
    generator but the range of its outputs) and the number of draws
    already consumed. *)
Record RandomState : Type := mk_RandomState {
  tape : nat -> unit_draw;
  cursor : nat
}.

(** Skipping [k] draws. *)
Definition advance (k : nat) (g : RandomState) : RandomState :=
  {| tape := tape g; cursor := (cursor g + k)%nat |}.

(** The [i]-th draw still to come. *)
Definition upcoming (g : RandomState) (i : nat) : unit_draw :=
  tape g (cursor g + i)%nat.

Definition random_sample (g : RandomState) : R * RandomState :=
  (draw_val (tape g (cursor g)), advance 1 g).

(** Two draws a generator may give, and the generator that repeats one
    draw for ever. *)
Definition zero_draw : unit_draw.
Proof. refine (mk_unit_draw 0 _). lra. Defined.

Definition half_draw : unit_draw.
Proof. refine (mk_unit_draw (1 / 2) _). lra. Defined.

Definition const_gen (d : unit_draw) : RandomState :=
  {| tape := fun _ => d; cursor := 0 |}.

(** ** Python computations: exceptions over a threaded state *)

Inductive exn : Type :=
| ValueError      (* "negative dimensions are not allowed" *)
| OverflowError   (* "Range exceeds valid bounds" *)
| TypeError.      (* an operand of the wrong kind *)

Inductive result (A : Type) : Type :=
| Ok (a : A)
| Raise (e : exn).
Arguments Ok {A} a.
Arguments Raise {A} e.

(** A computation over the state [S] either returns or raises, and
    leaves a state behind in both cases. *)
Definition comp (S A : Type) : Type := S -> result A * S.

Definition ret {S A : Type} (a : A) : comp S A := fun s => (Ok a, s).

Definition raise {S A : Type} (e : exn) : comp S A := fun s => (Raise e, s).

Definition bind {S A B : Type} (c : comp S A) (k : A -> comp S B)
  : comp S B :=
  fun s =>
    match c s with
    | (Ok a, s1) => k a s1
    | (Raise e, s1) => (Raise e, s1)
    end.

Declare Scope py_scope.
Delimit Scope py_scope with py.
Notation "x <- c ;; k" := (bind c (fun x => k))
  (at level 61, c at next level, right associativity) : py_scope.

(** The computations of the value embedding: the generator is the state. *)
Definition py (A : Type) : Type := comp RandomState A.

(** ** NumPy, on values *)

(** A float as an array element: a number, or NaN ([None]). *)
Definition float : Type := option R.
Definition NaN : float := None.

(** A one-dimensional array of numbers. *)
Definition ndarray : Type := list R.

(** [k] successive outputs of [random_sample], in order. *)
Fixpoint random_samples (k : nat) (g : RandomState) : list R * RandomState :=
  match k with
  | O => ([], g)
  | S k' =>
      let (u, g1) := random_sample g in
      let (us, g2) := random_samples k' g1 in
      (u :: us, g2)
  end.

(** [np.random.uniform(low, high, size)]: a negative [size] is refused
    before anything is drawn; otherwise each element is
    [low + (high - low) * random_sample()]. *)
Definition np_random_uniform (low high : R) (size : Z) : py ndarray :=
  fun g =>
    if (size <? 0)%Z then (Raise ValueError, g)
    else
      let (us, g') := random_samples (Z.to_nat size) g in
      (Ok (map (fun u => low + (high - low) * u) us), g').

(** [np.arccos] on one element: NaN outside [-1, 1]. *)
Definition np_arccos (x : R) : float :=
  if Rle_dec (-1) x then
    if Rle_dec x 1 then Some (acos x) else NaN
  else NaN.

(** ** [CoordsCvt] *)

(** An array of shape (3, n), by rows. *)
Record coords : Type := mk_coords {
  row_x : list float;
  row_y : list float;
  row_z : list float
}.

Definition point : Type := (float * float * float)%type.

Definition coord_x (p : point) : float := fst (fst p).
Definition coord_y (p : point) : float := snd (fst p).
Definition coord_z (p : point) : float := snd p.

(** [a.T] on shape (3, n): the [n] rows [(x, y, z)]. *)
Definition T (a : coords) : list point :=
  combine (combine (row_x a) (row_y a)) (row_z a).

Definition cart_x (t : float) (phi : R) : float :=
  match t with Some th => Some (sin th * cos phi) | None => NaN end.
Definition cart_y (t : float) (phi : R) : float :=
  match t with Some th => Some (sin th * sin phi) | None => NaN end.
Definition cart_z (t : float) : float :=
  match t with Some th => Some (cos th) | None => NaN end.

(** Modelled from the spec: [CoordsCvt.sphere_to_cart] of [.coord] is not
    among the sources.  It takes the parallel sequences of polar and
    azimuthal angles and gives [x = sin(theta)cos(phi)],
    [y = sin(theta)sin(phi)], [z = cos(theta)], coordinate by
    coordinate ([RNG.sphere] transposes the result into triples); a NaN
    angle gives NaN coordinates. *)
Definition sphere_to_cart (t : list float) (phi : ndarray) : coords :=
  {| row_x := map (fun a => cart_x (fst a) (snd a)) (combine t phi);
     row_y := map (fun a => cart_y (fst a) (snd a)) (combine t phi);
     row_z := map (fun a => cart_z (fst a)) (combine t phi) |}.

(** ** [class RNG], on values *)

Module RNG.

Local Open Scope py_scope.

(** [def uniform( n, lo=0., hi=1. )] *)
Definition uniform_lo : R := 0.0.
Definition uniform_hi : R := 1.0.

Definition uniform (n : Z) (lo hi : R) : py ndarray :=
  np_random_uniform lo hi n.

(** The local variables of [sphere] when it reaches its [return]. *)
Record sphere_locals : Type := mk_sphere_locals {
  l_u : ndarray;          (* RNG.uniform(n, 1.0e-6, 1.0-1.0e-6) *)
  l_cos_t : ndarray;      (* cos_t *)
  l_t : list float;       (* t *)
  l_v : ndarray;          (* RNG.uniform(n) *)
  l_phi : ndarray         (* phi *)
}.

(** The body of [sphere] up to its [return]. *)
Definition sphere_body (n : Z) : py sphere_locals :=
  u <- uniform n 1.0e-6 (1.0 - 1.0e-6) ;;
  let cos_t := map (fun a => 2 * a - 1.0) u in
  let t := map np_arccos cos_t in
  v <- uniform n uniform_lo uniform_hi ;;
  let phi := map (fun a => 2.0 * PI * a) v in
  ret {| l_u := u; l_cos_t := cos_t; l_t := t; l_v := v; l_phi := phi |}.

(** [def sphere( n )] *)
Definition sphere (n : Z) : py (list point) :=
  l <- sphere_body n ;;
  ret (T (sphere_to_cart (l_t l) (l_phi l))).

End RNG.

(** ** The same code over a store of buffers *)

Module Mem.

Local Open Scope py_scope.

Definition addr : Type := nat.

(** What the store holds at an address. *)
Inductive cell : Type :=
| Numbers (d : ndarray)                      (* data of a 1-d array *)
| Angles (d : list float)                    (* the same, NaN allowed *)
| Rows (d : coords)                          (* data of shape (3, n) *)
| Instance (attrs : list (string * addr)).   (* an object's attributes *)

(** An array object: the buffer it reads, and whether it reads it
    transposed.  A view is another array object on the same buffer. *)
Record array : Type := mk_array {
  buffer : addr;
  transposed : bool
}.

(** The program state: the generator and the store.  Addresses are
    positions in the store; nothing is ever freed. *)
Record world : Type := mk_world {
  gen : RandomState;
  heap : list cell
}.

Definition mem (A : Type) : Type := comp world A.

Definition alloc (c : cell) : mem addr :=
  fun w => (Ok (length (heap w)), {| gen := gen w; heap := heap w ++ [c] |}).

Definition new_array (c : cell) : mem array :=
  b <- alloc c ;;
  ret {| buffer := b; transposed := false |}.

(** A computation on the generator, run on the generator of the world. *)
Definition with_generator {A : Type} (c : py A) : mem A :=
  fun w => let (r, g') := c (gen w) in (r, {| gen := g'; heap := heap w |}).

Definition load_numbers (a : array) : mem ndarray :=
  fun w =>
    match nth_error (heap w) (buffer a) with
    | Some (Numbers d) => (Ok d, w)
    | _ => (Raise TypeError, w)
    end.

Definition load_angles (a : array) : mem (list float) :=
  fun w =>
    match nth_error (heap w) (buffer a) with
    | Some (Angles d) => (Ok d, w)
    | _ => (Raise TypeError, w)
    end.

(** [np.random.uniform]: the result is a new array. *)
Definition m_random_uniform (low high : R) (size : Z) : mem array :=
  d <- with_generator (np_random_uniform low high size) ;;
  new_array (Numbers d).

(** [c * a] and [a - c] with a scalar [c]: the result is a new array. *)
Definition m_scalar_mul (c : R) (a : array) : mem array :=
  d <- load_numbers a ;;
  new_array (Numbers (map (fun x => c * x) d)).

Definition m_sub_scalar (a : array) (c : R) : mem array :=
  d <- load_numbers a ;;
  new_array (Numbers (map (fun x => x - c) d)).

(** [np.arccos( a )]: the result is a new array. *)
Definition m_arccos (a : array) : mem array :=
  d <- load_numbers a ;;
  new_array (Angles (map np_arccos d)).

(** Modelled from the spec: [CoordsCvt.sphere_to_cart] is not among the
    sources; the spec has it a pure function of its two arguments that
    returns the Cartesian coordinates, so it reads both arrays and
    returns a new one. *)
Definition m_sphere_to_cart (t phi : array) : mem array :=
  dt <- load_angles t ;;
  dphi <- load_numbers phi ;;
  new_array (Rows (sphere_to_cart dt dphi)).

(** [a.T]: a view, no new buffer. *)
Definition m_T (a : array) : array :=
  {| buffer := buffer a; transposed := negb (transposed a) |}.

(** [def __init__(self): pass] *)
Definition __init__ (self : addr) : mem unit := ret tt.

(** [RNG()] *)
Definition new_RNG : mem addr :=
  self <- alloc (Instance []) ;;
  _ <- __init__ self ;;
  ret self.

(** The two static methods: no [self]. *)
Definition uniform (n : Z) (lo hi : R) : mem array :=
  m_random_uniform lo hi n.

Definition sphere (n : Z) : mem array :=
  u <- uniform n 1.0e-6 (1.0 - 1.0e-6) ;;
  u2 <- m_scalar_mul 2 u ;;
  cos_t <- m_sub_scalar u2 1.0 ;;
  t <- m_arccos cos_t ;;
  v <- uniform n RNG.uniform_lo RNG.uniform_hi ;;
  phi <- m_scalar_mul (2.0 * PI) v ;;
  c <- m_sphere_to_cart t phi ;;
  ret (m_T c).

(** What an array object denotes in a world. *)
Definition read_numbers (w : world) (a : array) : option ndarray :=
  match nth_error (heap w) (buffer a) with
  | Some (Numbers d) => Some d
  | _ => None
  end.

Definition read_points (w : world) (a : array) : option (list point) :=
  match nth_error (heap w) (buffer a) with
  | Some (Rows d) => if transposed a then Some (T d) else None
  | _ => None
  end.

(** Two array objects alias when they read the same buffer. *)
Definition aliases (a b : array) : Prop := buffer a = buffer b.

(** [w'] keeps every buffer and object of [w] as it was. *)
Definition preserves (w w' : world) : Prop :=
  forall (a : addr) (c : cell),
    nth_error (heap w) a = Some c -> nth_error (heap w') a = Some c.

(** [a] was not allocated in [w]. *)
Definition fresh_in (w : world) (a : array) : Prop :=
  (length (heap w) <= buffer a)%nat.

(** [a] reads a buffer of [w]. *)
Definition allocated_in (w : world) (a : array) : Prop :=
  (buffer a < length (heap w))%nat.

End Mem.

(** ** [np.random.uniform] in binary64 *)

(** The arithmetic of [RNG.uniform], as the machine does it.  A finite
    double is a dyadic number [mant * 2^expo]; an operation computes its
    result exactly and rounds it to the nearest double, to the even one
    of two nearest; a result too large for a double is not finite.
    Signed zeros are not told apart, and infinities and NaN are one
    value, [NotFinite]: [np.random.uniform] only asks whether
    [high - low] is finite. *)

Module B64.

Definition pow2 (e : Z) : R := powerRZ 2 e.

Record dyadic : Type := mk_dyadic { mant : Z; expo : Z }.

(** The number a dyadic stands for. *)
Definition val (d : dyadic) : R := IZR (mant d) * pow2 (expo d).

(** The least and greatest exponents of a double with a 53-bit integer
    mantissa. *)
Definition emin : Z := -1074.
Definition emax : Z := 971.

(** A dyadic that is a double. *)
Definition is_b64 (d : dyadic) : bool :=
  (Z.abs (mant d) <? 2 ^ 53)%Z && (emin <=? expo d)%Z && (expo d <=? emax)%Z.

Definition dzero : dyadic := {| mant := 0; expo := 0 |}.

(** Exact arithmetic and order on dyadic numbers. *)
Definition dadd (a b : dyadic) : dyadic :=
  let e := Z.min (expo a) (expo b) in
  {| mant := mant a * 2 ^ (expo a - e) + mant b * 2 ^ (expo b - e);
     expo := e |}.

Definition dsub (a b : dyadic) : dyadic :=
  let e := Z.min (expo a) (expo b) in
  {| mant := mant a * 2 ^ (expo a - e) - mant b * 2 ^ (expo b - e);
     expo := e |}.

Definition dmul (a b : dyadic) : dyadic :=
  {| mant := mant a * mant b; expo := expo a + expo b |}.

Definition dleb (a b : dyadic) : bool :=
  let e := Z.min (expo a) (expo b) in
  (mant a * 2 ^ (expo a - e) <=? mant b * 2 ^ (expo b - e))%Z.

Definition dltb (a b : dyadic) : bool :=
  let e := Z.min (expo a) (expo b) in
  (mant a * 2 ^ (expo a - e) <? mant b * 2 ^ (expo b - e))%Z.

(** Rounding [m * 2^e], [m > 0], to 53 bits, to nearest and to even on
    a tie: the mantissa and the exponent of the result.  Below [2^emin]
    the exponent stays [emin] (subnormal numbers). *)
Definition round_pos (m e : Z) : Z * Z :=
  let e' := Z.max (e + Z.log2 m - 52) emin in
  if (e' <=? e)%Z then (m * 2 ^ (e - e'), e')%Z
  else
    let s := (e' - e)%Z in
    let q := (m / 2 ^ s)%Z in
    let r := (m mod 2 ^ s)%Z in
    let h := (2 ^ (s - 1))%Z in
    let q' := if (r <? h)%Z then q
              else if (h <? r)%Z then (q + 1)%Z
              else if Z.even q then q else (q + 1)%Z in
    if (q' =? 2 ^ 53)%Z then (2 ^ 52, e' + 1)%Z else (q', e').

(** A double: finite, or not (an infinity or NaN). *)
Inductive float : Type :=
| Fin (d : dyadic)
| NotFinite.

(** Rounding an exact result to a double; overflow gives an infinity. *)
Definition round (d : dyadic) : float :=
  if (mant d =? 0)%Z then Fin dzero
  else
    let (q, e') := round_pos (Z.abs (mant d)) (expo d) in
    if (emax <? e')%Z then NotFinite
    else Fin {| mant := Z.sgn (mant d) * q; expo := e' |}.

Definition fadd (a b : float) : float :=
  match a, b with Fin x, Fin y => round (dadd x y) | _, _ => NotFinite end.

Definition fsub (a b : float) : float :=
  match a, b with Fin x, Fin y => round (dsub x y) | _, _ => NotFinite end.

Definition fmul (a b : float) : float :=
  match a, b with Fin x, Fin y => round (dmul x y) | _, _ => NotFinite end.

(** The machine's own double for a dyadic that is one, and back: the
    model is compared with the hardware on sample doubles. *)
Definition to_prim (d : dyadic) : PrimFloat.float :=
  let a := FloatOps.Z.ldexp (PrimFloat.of_uint63 (Uint63.of_Z (Z.abs (mant d))))
                   (expo d) in
  if (mant d <? 0)%Z then PrimFloat.opp a else a.

Definition of_prim (x : PrimFloat.float) : float :=
  match FloatOps.Prim2SF x with
  | SpecFloat.S754_zero _ => Fin dzero
  | SpecFloat.S754_finite s m e =>
      Fin {| mant := if s then Z.neg m else Z.pos m; expo := e |}
  | _ => NotFinite
  end.

Definition same (a b : float) : bool :=
  match a, b with
  | Fin x, Fin y => (mant (dsub x y) =? 0)%Z
  | NotFinite, NotFinite => true
  | _, _ => false
  end.

Definition agree (op : float -> float -> float)
           (machine : PrimFloat.float -> PrimFloat.float -> PrimFloat.float)
           (l : list dyadic) : bool :=
  forallb (fun a =>
    forallb (fun b =>
      same (op (Fin a) (Fin b)) (of_prim (machine (to_prim a) (to_prim b))))
      l) l.

(** [0], [1], [3], [5], [-2], [0.1], [1 - 1e-6], the largest draw,
    [2^53 + 2], [1e308], [-1e308] and the smallest double. *)
Definition samples : list dyadic :=
  [ {| mant := 0; expo := 0 |}; {| mant := 1; expo := 0 |};
    {| mant := 3; expo := 0 |}; {| mant := 5; expo := 0 |};
    {| mant := -2; expo := 0 |};
    {| mant := 3602879701896397; expo := -55 |};
    {| mant := 9007190247541737; expo := -53 |};
    {| mant := 9007199254740991; expo := -53 |};
    {| mant := 4503599627370497; expo := 1 |};
    {| mant := 5010420900022432; expo := 971 |};
    {| mant := -5010420900022432; expo := 971 |};
    {| mant := 1; expo := -1074 |} ].

(** The doubles as real numbers, whatever their exponent above [emin],
    and the doubles nearest to a real number. *)
Definition F (x : R) : Prop :=
  exists m e : Z, (Z.abs m < 2 ^ 53)%Z /\ (emin <= e)%Z /\ x = IZR m * pow2 e.

Definition nearest (x r : R) : Prop :=
  F r /\ forall f : R, F f -> Rabs (r - x) <= Rabs (f - x).

(** The generator: [random_sample] gives [k / 2^53] for a 53-bit [k];
    the tape holds the integers it is going to give, any integers,
    reduced to 53 bits. *)
Record RandomState : Type := mk_RandomState {
  tape : nat -> Z;
  cursor : nat
}.

Definition advance (k : nat) (g : RandomState) : RandomState :=
  {| tape := tape g; cursor := (cursor g + k)%nat |}.

Definition draw_of (k : Z) : dyadic := {| mant := k mod 2 ^ 53; expo := -53 |}.

Definition upcoming (g : RandomState) (i : nat) : dyadic :=
  draw_of (tape g (cursor g + i)%nat).

Definition random_sample (g : RandomState) : dyadic * RandomState :=
  (draw_of (tape g (cursor g)), advance 1 g).

Fixpoint random_samples (k : nat) (g : RandomState)
  : list dyadic * RandomState :=
  match k with
  | O => ([], g)
  | S k' =>
      let (u, g1) := random_sample g in
      let (us, g2) := random_samples k' g1 in
      (u :: us, g2)
  end.

Definition const_gen (k : Z) : RandomState :=
  {| tape := fun _ => k; cursor := 0 |}.

(** One element of [np.random.uniform]: [low + range * random_sample()],
    each operation rounded. *)
Definition affine (low range u : dyadic) : float :=
  fadd (Fin low) (fmul (Fin range) (Fin u)).

(** [np.random.uniform(low, high, size)] for finite [low] and [high]:
    [range = high - low] is computed first and the call refused when it
    is not finite; then a negative [size] is refused; then the elements
    are drawn.  An array of any size can be allocated: running out of
    memory is not part of the model. *)
Definition np_random_uniform (low high : dyadic) (size : Z)
  : comp RandomState (list float) :=
  fun g =>
    match fsub (Fin high) (Fin low) with
    | NotFinite => (Raise OverflowError, g)
    | Fin range =>
        if (size <? 0)%Z then (Raise ValueError, g)
        else
          let (us, g') := random_samples (Z.to_nat size) g in
          (Ok (map (fun u => affine low range u) us), g')
    end.

(** [def uniform( n, lo=0., hi=1. )] *)
Definition uniform_lo : dyadic := {| mant := 0; expo := 0 |}.
Definition uniform_hi : dyadic := {| mant := 1; expo := 0 |}.

Definition uniform (n : Z) (lo hi : dyadic) : comp RandomState (list float) :=
  np_random_uniform lo hi n.

End B64.

(** ** Quantities the properties are stated with *)

Definition norm3 (x y z : R) : R := sqrt (x * x + y * y + z * z).

(** Draw [r] of the generator, as the first call of [sphere] returns it. *)
Definition u_of (r : R) : R := 1.0e-6 + (1.0 - 1.0e-6 - 1.0e-6) * r.

(** Draw [r] of the generator, as the second call of [sphere] returns it. *)
Definition v_of (r : R) : R :=
  RNG.uniform_lo + (RNG.uniform_hi - RNG.uniform_lo) * r.

(** The locals of [sphere n] run from [g], in closed form. *)
Definition locals_of (n : Z) (g : RandomState) : RNG.sphere_locals :=
  let k := Z.to_nat n in
  let u := map (fun i => u_of (upcoming g i)) (seq 0 k) in
  let v := map (fun i => v_of (upcoming (advance k g) i)) (seq 0 k) in
  {| RNG.l_u := u;
     RNG.l_cos_t := map (fun a => 2 * a - 1.0) u;
     RNG.l_t := map np_arccos (map (fun a => 2 * a - 1.0) u);
     RNG.l_v := v;
     RNG.l_phi := map (fun a => 2.0 * PI * a) v |}.

(** The point that [sphere] makes of draw [r1] of its first batch and
    draw [r2] of its second. *)
Definition theta_of (r1 : R) : float := np_arccos (2 * u_of r1 - 1.0).
Definition phi_of (r2 : R) : R := 2.0 * PI * v_of r2.
Definition point_of (r1 r2 : R) : point :=
  (cart_x (theta_of r1) (phi_of r2),
   cart_y (theta_of r1) (phi_of r2),
   cart_z (theta_of r1)).

(** The buffers that [Mem.sphere n] allocates when run with generator
    [g], in the order of allocation. *)
Definition sphere_cells (n : Z) (g : RandomState) : list Mem.cell :=
  let l := locals_of n g in
  [Mem.Numbers (RNG.l_u l);
   Mem.Numbers (map (fun x => 2 * x) (RNG.l_u l));
   Mem.Numbers (RNG.l_cos_t l);
   Mem.Angles (RNG.l_t l);
   Mem.Numbers (RNG.l_v l);
   Mem.Numbers (RNG.l_phi l);
   Mem.Rows (sphere_to_cart (RNG.l_t l) (RNG.l_phi l))].

(** The ends of the range of [cos_t]. *)
Definition z_lo : R := 2 * 1.0e-6 - 1.0.
Definition z_hi : R := 2 * (1.0 - 1.0e-6) - 1.0.

(** The distribution function of the uniform law on [[a, b]]. *)
Definition uniform_cdf (a b c : R) : R := (c - a) / (b - a).

(** ** Proof steps that recur *)

(** Finds in a store grown by allocations the last cell of one of its
    prefixes. *)
Ltac lookup_buffer last_cell :=
  cbn [Mem.heap Mem.buffer];
  repeat (rewrite nth_error_app1 by (rewrite ?length_app; simpl; lia));
  apply last_cell.

(** * Properties *)

(** ** What a run of the generator produces *)

Lemma advance_advance (j k : nat) (g : RandomState) :
  advance k (advance j g) = advance (j + k) g.
Proof.
  unfold advance; simpl. f_equal. lia.
Qed.

Lemma advance_0 (g : RandomState) : advance 0 g = g.
Proof.
  destruct g as [tp c]. unfold advance; simpl. f_equal. lia.
Qed.

Lemma upcoming_advance (j i : nat) (g : RandomState) :
  upcoming (advance j g) i = upcoming g (j + i).
Proof.
  unfold upcoming, advance; simpl. f_equal. lia.
Qed.

(** The draws of [random_samples k] are the next [k] entries of the
    tape, in order, and the generator is left [k] draws further. *)
Lemma random_samples_spec (k : nat) (g : RandomState) :
  random_samples k g =
    (map (fun i => draw_val (upcoming g i)) (seq 0 k), advance k g).
Proof.
  revert g. induction k as [|k IH]; intros g.
  - simpl. now rewrite advance_0.
  - cbn [random_samples]. unfold random_sample. rewrite IH.
    rewrite advance_advance. cbn [seq map]. f_equal. f_equal.
    + unfold upcoming. f_equal. f_equal. lia.
    + rewrite <- seq_shift, map_map. apply map_ext.
      intros i. now rewrite upcoming_advance.
Qed.

Lemma np_random_uniform_ok (low high : R) (size : Z) (g : RandomState) :
  (0 <= size)%Z ->
  np_random_uniform low high size g =
    (Ok (map (fun i => low + (high - low) * upcoming g i)
             (seq 0 (Z.to_nat size))),
     advance (Z.to_nat size) g).
Proof.
  intros Hn. unfold np_random_uniform.
  destruct (Z.ltb_spec size 0) as [Hneg|_]; [lia|].
  rewrite random_samples_spec, map_map. reflexivity.
Qed.

Lemma np_random_uniform_negative (low high : R) (size : Z) (g : RandomState) :
  (size < 0)%Z ->
  np_random_uniform low high size g = (Raise ValueError, g).
Proof.
  intros Hn. unfold np_random_uniform.
  destruct (Z.ltb_spec size 0) as [_|Hpos]; [reflexivity|lia].
Qed.

Lemma Forall_map_seq {A : Type} (P : A -> Prop) (f : nat -> A) (s k : nat) :
  (forall i, (s <= i < s + k)%nat -> P (f i)) -> Forall P (map f (seq s k)).
Proof.
  intros H. apply Forall_forall. intros a Ha.
  apply in_map_iff in Ha. destruct Ha as [i [<- Hi]].
  apply in_seq in Hi. now apply H.
Qed.

Lemma nth_error_map_seq {A : Type} (f : nat -> A) (k i : nat) :
  (i < k)%nat -> nth_error (map f (seq 0 k)) i = Some (f i).
Proof.
  intros Hi. rewrite nth_error_map, nth_error_seq.
  destruct (Nat.ltb_spec i k) as [_|Hge]; [reflexivity|lia].
Qed.

(** The affine image of a unit draw. *)
Lemma affine_draw_bounds (lo hi : R) (u : unit_draw) :
  lo < hi -> lo <= lo + (hi - lo) * u < hi.
Proof.
  intros Hlt. destruct u as [u [H0 H1]]; simpl. split; nra.
Qed.

(** ** The two methods, run from any generator state *)

Lemma uniform_ok (n : Z) (lo hi : R) (g : RandomState) :
  (0 <= n)%Z ->
  RNG.uniform n lo hi g =
    (Ok (map (fun i => lo + (hi - lo) * upcoming g i) (seq 0 (Z.to_nat n))),
     advance (Z.to_nat n) g).
Proof.
  intros Hn. unfold RNG.uniform. now apply np_random_uniform_ok.
Qed.

Lemma sphere_body_ok (n : Z) (g : RandomState) :
  (0 <= n)%Z ->
  RNG.sphere_body n g =
    (Ok (locals_of n g), advance (Z.to_nat n) (advance (Z.to_nat n) g)).
Proof.
  intros Hn. unfold RNG.sphere_body, bind. rewrite uniform_ok by exact Hn.
  rewrite uniform_ok by exact Hn. reflexivity.
Qed.

Lemma sphere_ok (n : Z) (g : RandomState) :
  (0 <= n)%Z ->
  RNG.sphere n g =
    (Ok (T (sphere_to_cart (RNG.l_t (locals_of n g))
                           (RNG.l_phi (locals_of n g)))),
     advance (Z.to_nat n) (advance (Z.to_nat n) g)).
Proof.
  intros Hn. unfold RNG.sphere, bind. rewrite sphere_body_ok by exact Hn.
  reflexivity.
Qed.

(** ** One point of [sphere] *)

Lemma combine_map_same {A B C : Type} (f : A -> B) (h : A -> C) (l : list A) :
  combine (map f l) (map h l) = map (fun a => (f a, h a)) l.
Proof.
  induction l as [|a l IH]; simpl; [reflexivity|now rewrite IH].
Qed.

(** The triples of [sphere], draw by draw. *)
Lemma sphere_points (n : Z) (g : RandomState) :
  T (sphere_to_cart (RNG.l_t (locals_of n g)) (RNG.l_phi (locals_of n g))) =
    map (fun i => point_of (upcoming g i)
                           (upcoming (advance (Z.to_nat n) g) i))
        (seq 0 (Z.to_nat n)).
Proof.
  unfold T, sphere_to_cart, locals_of; cbn [RNG.l_t RNG.l_phi row_x row_y row_z].
  repeat (rewrite map_map || rewrite combine_map_same).
  apply map_ext. intros i. reflexivity.
Qed.

Lemma u_of_range (r : unit_draw) : 1.0e-6 <= u_of r < 1.0 - 1.0e-6.
Proof.
  unfold u_of. destruct r as [r [H0 H1]]; simpl. split; nra.
Qed.

Lemma v_of_range (r : unit_draw) : 0 <= v_of r < 1.
Proof.
  unfold v_of, RNG.uniform_lo, RNG.uniform_hi.
  destruct r as [r [H0 H1]]; simpl. split; nra.
Qed.

Lemma v_of_draw (r : R) : v_of r = r.
Proof.
  unfold v_of, RNG.uniform_lo, RNG.uniform_hi. lra.
Qed.

Lemma cos_t_range (r : unit_draw) : z_lo <= 2 * u_of r - 1.0 < z_hi.
Proof.
  pose proof (u_of_range r) as [Hl Hh]. unfold z_lo, z_hi. split; lra.
Qed.

Lemma z_lo_hi_inside : -1 < z_lo /\ z_hi < 1.
Proof.
  unfold z_lo, z_hi. split; lra.
Qed.

Lemma np_arccos_defined (c : R) :
  -1 <= c <= 1 -> np_arccos c = Some (acos c).
Proof.
  intros [Hl Hh]. unfold np_arccos.
  destruct (Rle_dec (-1) c) as [_|Hn]; [|contradiction].
  destruct (Rle_dec c 1) as [_|Hn]; [reflexivity|contradiction].
Qed.

Lemma np_arccos_nan (c : R) :
  c < -1 \/ 1 < c -> np_arccos c = NaN.
Proof.
  intros Hout. unfold np_arccos.
  destruct (Rle_dec (-1) c) as [Hl|_]; [|reflexivity].
  destruct (Rle_dec c 1) as [Hh|_]; [lra|reflexivity].
Qed.

Lemma theta_of_draw (r : unit_draw) :
  theta_of r = Some (acos (2 * u_of r - 1.0)).
Proof.
  pose proof (cos_t_range r) as [Hl Hh].
  pose proof z_lo_hi_inside as [Hlo Hhi].
  unfold theta_of. apply np_arccos_defined. lra.
Qed.

Lemma point_of_draws (r1 r2 : unit_draw) :
  point_of r1 r2 =
    (Some (sin (acos (2 * u_of r1 - 1.0)) * cos (phi_of r2)),
     Some (sin (acos (2 * u_of r1 - 1.0)) * sin (phi_of r2)),
     Some (2 * u_of r1 - 1.0)).
Proof.
  pose proof (cos_t_range r1) as [Hl Hh].
  pose proof z_lo_hi_inside as [Hlo Hhi].
  unfold point_of. rewrite theta_of_draw. cbn [cart_x cart_y cart_z].
  rewrite cos_acos by lra. reflexivity.
Qed.

Lemma spherical_unit (theta phi : R) :
  (sin theta * cos phi) * (sin theta * cos phi)
  + (sin theta * sin phi) * (sin theta * sin phi)
  + cos theta * cos theta = 1.
Proof.
  pose proof (sin2_cos2 theta) as Ht. pose proof (sin2_cos2 phi) as Hp.
  unfold Rsqr in Ht, Hp. nra.
Qed.

Lemma norm3_spherical (theta phi : R) :
  norm3 (sin theta * cos phi) (sin theta * sin phi) (cos theta) = 1.
Proof.
  unfold norm3. rewrite spherical_unit. apply sqrt_1.
Qed.

(** ** Two runs *)

(** [uniform(2, -2.0, -1.0)] when the generator draws [0.5] twice. *)
Example uniform_half :
  RNG.uniform 2 (-2.0) (-1.0) (const_gen half_draw)
  = (Ok [-1.5; -1.5], advance 2 (const_gen half_draw)).
Proof.
  rewrite uniform_ok by lia. change (Z.to_nat 2) with 2%nat.
  cbn [seq map]. unfold upcoming, const_gen, half_draw. cbn [tape draw_val].
  f_equal. f_equal. f_equal; [lra|]. f_equal. lra.
Qed.

(** [sphere(1)] when the generator draws [0.5] twice: [cos_t = 0],
    [t = PI / 2], [phi = PI], the point [(-1, 0, 0)]. *)
Example sphere_half :
  RNG.sphere 1 (const_gen half_draw)
  = (Ok [(Some (-1), Some 0, Some 0)], advance 2 (const_gen half_draw)).
Proof.
  rewrite sphere_ok by lia. rewrite sphere_points, advance_advance.
  change (Z.to_nat 1) with 1%nat. cbn [seq map Nat.add]. f_equal. f_equal.
  f_equal. rewrite point_of_draws.
  unfold upcoming, advance, const_gen, half_draw. cbn [tape draw_val cursor].
  replace (2 * u_of (1 / 2) - 1.0) with 0 by (unfold u_of; lra).
  replace (phi_of (1 / 2)) with PI by (unfold phi_of; rewrite v_of_draw; lra).
  rewrite acos_0, sin_PI2, cos_PI, sin_PI.
  now rewrite Rmult_1_l, Rmult_1_l.
Qed.

(** ** Binary64 arithmetic *)

Module B64Facts.

Import B64.

(** *** Powers of two, doubles and nearest doubles *)

Lemma pow2_pos (e : Z) : 0 < pow2 e.
Proof. apply powerRZ_lt. lra. Qed.

Lemma pow2_add (a b : Z) : pow2 (a + b) = pow2 a * pow2 b.
Proof. apply powerRZ_add. lra. Qed.

Lemma pow2_0 : pow2 0 = 1.
Proof. reflexivity. Qed.

Lemma pow2_IZR (k : Z) : (0 <= k)%Z -> pow2 k = IZR (2 ^ k).
Proof.
  intros Hk. unfold pow2. rewrite <- (Z2Nat.id k Hk) at 1.
  rewrite <- pow_powerRZ. rewrite (pow_IZR 2). now rewrite Z2Nat.id.
Qed.

Lemma pow2_sub (a b : Z) : pow2 (a - b) * pow2 b = pow2 a.
Proof. rewrite <- pow2_add. f_equal. lia. Qed.

Lemma pow2_le (a b : Z) : (a <= b)%Z -> pow2 a <= pow2 b.
Proof.
  intros H. assert (E : pow2 b = pow2 a * pow2 (b - a)).
  { rewrite <- pow2_add. f_equal. lia. }
  rewrite E, (pow2_IZR (b - a)) by lia. pose proof (pow2_pos a).
  assert (1 <= IZR (2 ^ (b - a))).
  { apply IZR_le. assert (0 < 2 ^ (b - a))%Z by (apply Z.pow_pos_nonneg; lia). lia. }
  nra.
Qed.

Lemma pow2_lt (a b : Z) : (a < b)%Z -> pow2 a < pow2 b.
Proof.
  intros H. assert (E : pow2 b = pow2 a * pow2 (b - a)).
  { rewrite <- pow2_add. f_equal. lia. }
  rewrite E, (pow2_IZR (b - a)) by lia. pose proof (pow2_pos a).
  assert (2 <= IZR (2 ^ (b - a))).
  { apply IZR_le. replace (b - a)%Z with (1 + (b - a - 1))%Z by lia.
    rewrite Z.pow_add_r by lia.
    assert (0 < 2 ^ (b - a - 1))%Z by (apply Z.pow_pos_nonneg; lia). lia. }
  nra.
Qed.

Lemma val_shift (m e s : Z) :
  (0 <= s)%Z -> IZR (m * 2 ^ s) * pow2 (e - s) = IZR m * pow2 e.
Proof.
  intros Hs. rewrite mult_IZR, <- pow2_IZR by exact Hs.
  rewrite Rmult_assoc, <- pow2_add. do 2 f_equal. lia.
Qed.

Lemma F_opp (x : R) : F x -> F (- x).
Proof.
  intros [m [e [Hm [He ->]]]]. exists (- m)%Z, e.
  split; [lia|]. split; [exact He|]. rewrite opp_IZR. lra.
Qed.

Lemma F_0 : F 0.
Proof.
  exists 0%Z, 0%Z. split; [reflexivity|]. split; [unfold emin; lia|lra].
Qed.

Lemma nearest_le (x r f : R) : nearest x r -> F f -> x <= f -> r <= f.
Proof.
  intros [_ Hn] Hf Hx. specialize (Hn f Hf).
  destruct (Rle_lt_dec r f) as [H|H]; [exact H|].
  rewrite Rabs_pos_eq in Hn by lra. rewrite Rabs_pos_eq in Hn by lra. lra.
Qed.

Lemma nearest_ge (x r f : R) : nearest x r -> F f -> f <= x -> f <= r.
Proof.
  intros [_ Hn] Hf Hx. specialize (Hn f Hf).
  destruct (Rle_lt_dec f r) as [H|H]; [exact H|].
  rewrite (Rabs_left1 (r - x)) in Hn by lra.
  rewrite (Rabs_left1 (f - x)) in Hn by lra. lra.
Qed.

Lemma nearest_exact (x r : R) : nearest x r -> F x -> r = x.
Proof.
  intros Hn Hx. apply Rle_antisym.
  - apply (nearest_le x r x Hn Hx). lra.
  - apply (nearest_ge x r x Hn Hx). lra.
Qed.

Lemma nearest_opp (x r : R) : nearest x r -> nearest (- x) (- r).
Proof.
  intros [Hr Hn]. split; [now apply F_opp|]. intros f Hf.
  specialize (Hn (- f) (F_opp f Hf)).
  replace (- r - - x) with (- (r - x)) by lra. rewrite Rabs_Ropp.
  replace (f - - x) with (- (- f - x)) by lra. now rewrite Rabs_Ropp.
Qed.

Lemma F_multiple (f : R) (e' : Z) :
  F f -> (exists M : Z, f = IZR M * pow2 e') \/
         (exists mf ef : Z, (Z.abs mf < 2 ^ 53)%Z /\ (emin <= ef < e')%Z
                            /\ f = IZR mf * pow2 ef).
Proof.
  intros [mf [ef [Hm [He ->]]]].
  destruct (Z_lt_le_dec ef e') as [Hlt|Hge].
  - right. exists mf, ef. repeat split; try assumption.
  - left. exists (mf * 2 ^ (ef - e'))%Z.
    rewrite <- (val_shift mf ef (ef - e')) by lia. do 2 f_equal. lia.
Qed.

Lemma spacing (f : R) (q e' : Z) :
  F f -> (emin <= e')%Z -> (2 ^ 52 <= q)%Z \/ e' = emin ->
  IZR q * pow2 e' < f -> f < IZR (q + 1) * pow2 e' -> False.
Proof.
  intros Hf He Hq Hl Hu. pose proof (pow2_pos e') as Hp.
  destruct (F_multiple f e' Hf) as [[M ->]|[mf [ef [Hm [[He1 He2] ->]]]]].
  - apply Rmult_lt_reg_r in Hl; [|exact Hp].
    apply Rmult_lt_reg_r in Hu; [|exact Hp].
    apply lt_IZR in Hl. apply lt_IZR in Hu. lia.
  - destruct Hq as [Hq|Hq]; [|lia].
    assert (Hb : IZR mf * pow2 ef <= IZR (2 ^ 52) * pow2 e').
    { assert (E : pow2 e' = pow2 ef * pow2 (e' - ef)).
      { rewrite <- pow2_add. f_equal. lia. }
      rewrite E, (pow2_IZR (e' - ef)) by lia.
      pose proof (pow2_pos ef) as Hpf.
      assert (H2 : (2 <= 2 ^ (e' - ef))%Z).
      { replace (e' - ef)%Z with (1 + (e' - ef - 1))%Z by lia.
        rewrite Z.pow_add_r by lia.
        assert (0 < 2 ^ (e' - ef - 1))%Z by (apply Z.pow_pos_nonneg; lia).
        lia. }
      apply IZR_le in H2.
      assert (H3 : IZR mf <= IZR (2 ^ 53)) by (apply IZR_le; lia).
      assert (H4 : IZR (2 ^ 53) = 2 * IZR (2 ^ 52)).
      { rewrite <- mult_IZR. f_equal. }
      assert (H5 : 0 < IZR (2 ^ 52)) by (apply IZR_lt; reflexivity).
      nra. }
    assert (Hc : IZR (2 ^ 52) * pow2 e' <= IZR q * pow2 e').
    { apply Rmult_le_compat_r; [lra|]. now apply IZR_le. }
    lra.
Qed.

Lemma pow2_1 : pow2 1 = 2.
Proof. unfold pow2. simpl. lra. Qed.

Lemma IZR_2_53 : IZR (2 ^ 53) = IZR (2 ^ 52) * 2.
Proof. rewrite <- mult_IZR. f_equal. Qed.

Lemma nearest_between (x l u r : R) :
  l <= x <= u ->
  (forall f : R, F f -> l < f -> f < u -> False) ->
  F r -> (r = l /\ x - l <= u - x) \/ (r = u /\ u - x <= x - l) ->
  nearest x r.
Proof.
  intros [Hl Hu] Hgap Hr Hch. split; [exact Hr|]. intros f Hf.
  assert (Hside : f <= l \/ u <= f).
  { destruct (Rle_lt_dec f l) as [H|H]; [now left|].
    destruct (Rle_lt_dec u f) as [H'|H']; [now right|].
    exfalso. exact (Hgap f Hf H H'). }
  destruct Hch as [[-> Hc]|[-> Hc]]; destruct Hside as [Hs|Hs].
  - rewrite (Rabs_left1 (l - x)), (Rabs_left1 (f - x)) by lra. lra.
  - rewrite (Rabs_left1 (l - x)), (Rabs_pos_eq (f - x)) by lra. lra.
  - rewrite (Rabs_pos_eq (u - x)), (Rabs_left1 (f - x)) by lra. lra.
  - rewrite (Rabs_pos_eq (u - x)), (Rabs_pos_eq (f - x)) by lra. lra.
Qed.

Lemma F_mant (q e' : Z) :
  (0 <= q <= 2 ^ 53)%Z -> (emin <= e')%Z -> F (IZR q * pow2 e').
Proof.
  intros Hq He. destruct (Z.eq_dec q (2 ^ 53)) as [->|Hne].
  - exists (2 ^ 52)%Z, (e' + 1)%Z. split; [reflexivity|]. split; [lia|].
    rewrite pow2_add, pow2_1, IZR_2_53. lra.
  - exists q, e'. split; [lia|]. split; [exact He|reflexivity].
Qed.

Lemma round_pos_spec (m e : Z) :
  (0 < m)%Z ->
  (0 <= fst (round_pos m e) < 2 ^ 53)%Z
  /\ (emin <= snd (round_pos m e))%Z
  /\ ((2 ^ 52 <= fst (round_pos m e))%Z \/ snd (round_pos m e) = emin)
  /\ nearest (IZR m * pow2 e)
             (IZR (fst (round_pos m e)) * pow2 (snd (round_pos m e))).
Proof.
  intros Hm. unfold round_pos.
  pose proof (Z.log2_spec m Hm) as [Hk1 Hk2].
  pose proof (Z.log2_nonneg m) as Hk0.
  set (k := Z.log2 m) in *.
  set (e' := Z.max (e + k - 52) emin).
  assert (He' : (emin <= e')%Z) by (unfold e'; lia).
  destruct (Z.leb_spec e' e) as [Hle|Hgt].
  - (* exact *)
    cbn [fst snd].
    assert (Hpos : (0 < 2 ^ (e - e'))%Z) by (apply Z.pow_pos_nonneg; lia).
    assert (Hub : (m * 2 ^ (e - e') < 2 ^ 53)%Z).
    { assert (2 ^ Z.succ k * 2 ^ (e - e') <= 2 ^ 53)%Z.
      { rewrite <- Z.pow_add_r by lia. apply Z.pow_le_mono_r; lia. }
      nia. }
    split; [nia|]. split; [exact He'|]. split.
    + destruct (Z.eq_dec e' emin) as [E|E]; [now right|left].
      assert (Ee : e' = (e + k - 52)%Z) by (unfold e' in *; lia).
      assert (2 ^ 52 = 2 ^ k * 2 ^ (e - e'))%Z.
      { rewrite <- Z.pow_add_r by lia. f_equal. lia. }
      nia.
    + replace (IZR (m * 2 ^ (e - e')) * pow2 e') with (IZR m * pow2 e).
      2:{ rewrite <- (val_shift m e (e - e')) by lia. do 2 f_equal. lia. }
      split.
      * rewrite <- (val_shift m e (e - e')) by lia.
        replace (e - (e - e'))%Z with e' by lia.
        apply F_mant; [lia|exact He'].
      * intros f _. rewrite Rminus_diag, Rabs_R0. apply Rabs_pos.
  - (* a real rounding *)
    set (s := (e' - e)%Z). assert (Hs : (0 < s)%Z) by (unfold s; lia).
    assert (H2s : (0 < 2 ^ s)%Z) by (apply Z.pow_pos_nonneg; lia).
    pose proof (Z.div_mod m (2 ^ s) ltac:(lia)) as Hdm.
    pose proof (Z.mod_pos_bound m (2 ^ s) H2s) as Hr.
    set (q := (m / 2 ^ s)%Z) in *. set (r := (m mod 2 ^ s)%Z) in *.
    set (h := (2 ^ (s - 1))%Z).
    assert (Hh : (2 ^ s = 2 * h)%Z).
    { unfold h. rewrite <- Z.pow_succ_r by lia. f_equal. lia. }
    assert (Hq0 : (0 <= q)%Z) by (unfold q; apply Z.div_pos; lia).
    assert (Hq53 : (q < 2 ^ 53)%Z).
    { unfold q. apply Z.div_lt_upper_bound; [exact H2s|].
      assert (2 ^ Z.succ k <= 2 ^ s * 2 ^ 53)%Z.
      { rewrite <- Z.pow_add_r by lia. apply Z.pow_le_mono_r; unfold s, e'; lia. }
      lia. }
    assert (Hnorm : (2 ^ 52 <= q)%Z \/ e' = emin).
    { destruct (Z.eq_dec e' emin) as [E|E]; [now right|left].
      assert (Es : s = (k - 52)%Z) by (unfold s, e' in *; lia).
      assert (2 ^ k = 2 ^ 52 * 2 ^ s)%Z.
      { rewrite <- Z.pow_add_r by lia. f_equal. lia. }
      unfold q. apply Z.div_le_lower_bound; [exact H2s|]. lia. }
    set (q' := if (r <? h)%Z then q
               else if (h <? r)%Z then (q + 1)%Z
               else if Z.even q then q else (q + 1)%Z).
    assert (Hq' : (q' = q /\ 2 * r <= 2 ^ s)%Z \/ (q' = q + 1 /\ 2 ^ s <= 2 * r)%Z).
    { unfold q'. destruct (Z.ltb_spec r h); [left; lia|].
      destruct (Z.ltb_spec h r); [right; lia|].
      destruct (Z.even q); [left|right]; lia. }
    (* the real picture *)
    pose proof (pow2_pos e) as HP.
    assert (EP : pow2 e' = IZR (2 ^ s) * pow2 e).
    { rewrite <- pow2_IZR, <- pow2_add by lia. f_equal. unfold s. lia. }
    assert (Ex : IZR m = IZR q * IZR (2 ^ s) + IZR r).
    { rewrite <- mult_IZR, <- plus_IZR. f_equal. lia. }
    assert (HrR : 0 <= IZR r < IZR (2 ^ s)).
    { split; [apply IZR_le; lia|apply IZR_lt; lia]. }
    assert (Hval : forall a b : Z,
               (if (q' =? 2 ^ 53)%Z then (2 ^ 52, e' + 1)%Z else (q', e')) = (a, b) ->
               IZR a * pow2 b = IZR q' * pow2 e').
    { intros a b. destruct (Z.eqb_spec q' (2 ^ 53)) as [E|E]; intros [= <- <-];
        [|reflexivity].
      rewrite E, pow2_add, pow2_1, IZR_2_53. lra. }
    destruct (if (q' =? 2 ^ 53)%Z then (2 ^ 52, e' + 1)%Z else (q', e'))
      as [a b] eqn:Hab.
    cbn [fst snd]. rewrite (Hval a b eq_refl).
    assert (Hc52 : (0 <= 2 ^ 52 < 2 ^ 53)%Z).
    { split; [apply Z.pow_nonneg; lia|apply Z.pow_lt_mono_r; lia]. }
    assert (Hab' : (0 <= a < 2 ^ 53)%Z /\ (emin <= b)%Z
                   /\ ((2 ^ 52 <= a)%Z \/ b = emin)).
    { clear Hval. destruct (Z.eqb_spec q' (2 ^ 53)) as [E|E];
        injection Hab as <- <-.
      - split; [exact Hc52|]. split; [lia|left; lia].
      - split; [lia|]. split; [exact He'|].
        destruct Hnorm as [Hn|Hn]; [left; lia|now right]. }
    destruct Hab' as [Ha [Hb Hn]].
    split; [exact Ha|]. split; [exact Hb|]. split; [exact Hn|].
    apply (nearest_between _ (IZR q * pow2 e') (IZR (q + 1) * pow2 e')).
    + rewrite EP, Ex, plus_IZR. split; nra.
    + intros f Hf H1 H2. exact (spacing f q e' Hf He' Hnorm H1 H2).
    + apply F_mant; [lia|exact He'].
    + assert (H2R : IZR (2 ^ s) = IZR (2 ^ s)) by reflexivity.
      destruct Hq' as [[-> Hc]|[-> Hc]]; [left|right]; (split; [reflexivity|]);
        rewrite EP, Ex, plus_IZR; apply IZR_le in Hc;
        rewrite mult_IZR in Hc; nra.
Qed.

Lemma nearest_strict (x r f : R) :
  nearest x r -> F f -> Rabs (f - x) < Rabs (r - x) -> False.
Proof.
  intros [_ Hn] Hf Hlt. specialize (Hn f Hf). lra.
Qed.

Lemma to_emin (x : R) :
  F x -> exists M : Z, x = IZR M * pow2 emin.
Proof.
  intros [m [e [Hm [He ->]]]]. exists (m * 2 ^ (e - emin))%Z.
  rewrite <- (val_shift m e (e - emin)) by lia. do 2 f_equal. lia.
Qed.

Lemma exact_difference (a b : R) :
  F a -> F b -> Rabs (b - a) < pow2 (-1021) -> F (b - a).
Proof.
  intros Ha Hb Hlt.
  destruct (to_emin a Ha) as [Ma ->]. destruct (to_emin b Hb) as [Mb ->].
  pose proof (pow2_pos emin) as HP.
  assert (E : IZR Mb * pow2 emin - IZR Ma * pow2 emin
              = IZR (Mb - Ma) * pow2 emin) by (rewrite minus_IZR; lra).
  rewrite E in *. exists (Mb - Ma)%Z, emin.
  split; [|split; [lia|reflexivity]].
  rewrite Rabs_mult, (Rabs_pos_eq (pow2 emin)), <- abs_IZR in Hlt by lra.
  assert (E2 : pow2 (-1021) = IZR (2 ^ 53) * pow2 emin).
  { rewrite <- pow2_IZR, <- pow2_add by lia. reflexivity. }
  rewrite E2 in Hlt. apply Rmult_lt_reg_r in Hlt; [|exact HP].
  now apply lt_IZR.
Qed.

Lemma normal_form (x : R) :
  F x -> pow2 (-1021) <= x ->
  exists m e : Z, (2 ^ 52 <= m < 2 ^ 53)%Z /\ (-1073 <= e)%Z
                  /\ x = IZR m * pow2 e.
Proof.
  intros [m0 [e0 [Hm [He ->]]]] Hx.
  pose proof (pow2_pos (-1021)) as H1. pose proof (pow2_pos e0) as H2.
  assert (Hpos : (0 < m0)%Z).
  { apply lt_IZR. nra. }
  pose proof (Z.log2_spec m0 Hpos) as [Hk1 Hk2].
  pose proof (Z.log2_nonneg m0) as Hk0.
  set (k := Z.log2 m0) in *.
  assert (Hk : (k <= 52)%Z).
  { assert (k < 53)%Z; [|lia]. apply (Z.pow_lt_mono_r_iff 2); lia. }
  set (s := (52 - k)%Z).
  assert (Hps : (0 < 2 ^ s)%Z) by (apply Z.pow_pos_nonneg; unfold s; lia).
  assert (E52 : (2 ^ 52 = 2 ^ k * 2 ^ s)%Z).
  { rewrite <- Z.pow_add_r by (unfold s; lia). f_equal. unfold s. lia. }
  assert (E53 : (2 ^ 53 = 2 ^ Z.succ k * 2 ^ s)%Z).
  { rewrite <- Z.pow_add_r by (unfold s; lia). f_equal. unfold s. lia. }
  exists (m0 * 2 ^ s)%Z, (e0 - s)%Z.
  assert (Hb : (2 ^ 52 <= m0 * 2 ^ s < 2 ^ 53)%Z) by nia.
  split; [exact Hb|].
  assert (Ev : IZR m0 * pow2 e0 = IZR (m0 * 2 ^ s) * pow2 (e0 - s)).
  { symmetry. apply val_shift. unfold s. lia. }
  split; [|exact Ev].
  rewrite Ev in Hx.
  destruct (Z_lt_le_dec (e0 - s) (-1073)) as [Hlt|Hge]; [exfalso|exact Hge].
  assert (Hle : pow2 (e0 - s) <= pow2 (-1074)) by (apply pow2_le; lia).
  assert (E : pow2 (-1021) = IZR (2 ^ 53) * pow2 (-1074)).
  { rewrite <- pow2_IZR, <- pow2_add by lia. reflexivity. }
  pose proof (pow2_pos (e0 - s)) as H3.
  assert (Hm53 : IZR (m0 * 2 ^ s) < IZR (2 ^ 53)) by (apply IZR_lt; lia).
  assert (Hm0 : 0 < IZR (m0 * 2 ^ s)) by (apply IZR_lt; lia).
  rewrite E in Hx. nra.
Qed.

Lemma draw_shrinks (r u p : R) :
  F r -> pow2 (-1021) <= r -> 0 <= u <= 1 - pow2 (-53) ->
  nearest (r * u) p -> p < r.
Proof.
  intros Hr Hbig [Hu0 Hu1] Hp.
  destruct (normal_form r Hr Hbig) as [m [e [[Hm1 Hm2] [He Er]]]].
  pose proof (pow2_pos e) as HP. pose proof (pow2_pos (-53)) as H53.
  assert (Hrpos : 0 < r).
  { rewrite Er. apply Rmult_lt_0_compat; [apply IZR_lt; lia|exact HP]. }
  assert (Hple : p <= r).
  { apply (nearest_le (r * u) p r Hp Hr). nra. }
  destruct (Rle_lt_dec r p) as [Hge|Hlt]; [exfalso|exact Hlt].
  assert (Epr : p = r) by lra. subst p.
  (* half a unit in the last place of r *)
  assert (Eh : pow2 e * pow2 (-53) * IZR (2 ^ 52) = pow2 (e - 1)).
  { rewrite <- pow2_IZR, <- !pow2_add by lia. f_equal. lia. }
  assert (E1 : pow2 e = 2 * pow2 (e - 1)).
  { rewrite <- pow2_1, <- pow2_add. f_equal. lia. }
  pose proof (pow2_pos (e - 1)) as HP1.
  assert (Hgap : pow2 (e - 1) <= r - r * u).
  { assert (IZR (2 ^ 52) <= IZR m) by (apply IZR_le; lia).
    assert (r * pow2 (-53) <= r - r * u) by nra.
    assert (pow2 (e - 1) <= r * pow2 (-53)); [|lra].
    rewrite <- Eh, Er. nra. }
  destruct (Z.eq_dec m (2 ^ 52)) as [Em|Em].
  - (* r is a power of two: the double below is half a unit away *)
    assert (Fq : F (IZR (2 ^ 53 - 1) * pow2 (e - 1))).
    { exists (2 ^ 53 - 1)%Z, (e - 1)%Z. split; [|split; [unfold emin; lia|reflexivity]].
      assert (0 < 2 ^ 53)%Z by (apply Z.pow_pos_nonneg; lia). lia. }
    assert (Eq : IZR (2 ^ 53 - 1) * pow2 (e - 1) = r - pow2 (e - 1)).
    { rewrite Er, Em, minus_IZR, IZR_2_53, E1. lra. }
    rewrite Eq in Fq.
    assert (Hu : r * u <= r - pow2 (e - 1)).
    { assert (r * pow2 (-53) = pow2 (e - 1)).
      { rewrite <- Eh, Er, Em. lra. }
      nra. }
    pose proof (nearest_le (r * u) r (r - pow2 (e - 1)) Hp Fq Hu). lra.
  - (* otherwise the double below is one unit away *)
    assert (Fq : F (IZR (m - 1) * pow2 e)).
    { exists (m - 1)%Z, e. split; [lia|]. split; [unfold emin; lia|reflexivity]. }
    assert (Eq : IZR (m - 1) * pow2 e = r - pow2 e).
    { rewrite Er, minus_IZR. lra. }
    rewrite Eq in Fq.
    assert (Hgap' : pow2 (e - 1) < r - r * u).
    { assert (IZR (2 ^ 52) + 1 <= IZR m).
      { rewrite <- plus_IZR. apply IZR_le. lia. }
      assert (r * pow2 (-53) <= r - r * u) by nra.
      assert (pow2 (e - 1) < r * pow2 (-53)); [|lra].
      rewrite <- Eh, Er.
      assert (0 < pow2 e * pow2 (-53)) by (apply Rmult_lt_0_compat; lra).
      nra. }
    destruct (Rle_lt_dec (r * u) (r - pow2 e)) as [Hlow|Hhigh].
    + pose proof (nearest_le (r * u) r (r - pow2 e) Hp Fq Hlow). lra.
    + apply (nearest_strict (r * u) r (r - pow2 e) Hp Fq).
      rewrite (Rabs_left1 (r - pow2 e - r * u)) by lra.
      rewrite (Rabs_pos_eq (r - r * u)) by lra. lra.
Qed.

Lemma uniform_product_bounds (lo hi u rng p : R) :
  F lo -> F hi -> lo <= hi -> 0 <= u <= 1 - pow2 (-53) ->
  nearest (hi - lo) rng -> nearest (rng * u) p ->
  0 <= p <= hi - lo.
Proof.
  intros Hlo Hhi Hle [Hu0 Hu1] Hrng Hp.
  pose proof (pow2_pos (-53)) as H53.
  assert (Hr0 : 0 <= rng) by (apply (nearest_ge (hi - lo) rng 0 Hrng F_0); lra).
  assert (Hp0 : 0 <= p) by (apply (nearest_ge (rng * u) p 0 Hp F_0); nra).
  assert (Frng : F rng) by apply Hrng.
  assert (Hpr : p <= rng) by (apply (nearest_le (rng * u) p rng Hp Frng); nra).
  split; [exact Hp0|].
  destruct (Rle_lt_dec rng (hi - lo)) as [HA|HB]; [lra|].
  (* the width was rounded up: it is no double, hence not small *)
  assert (Hbig : pow2 (-1021) <= hi - lo).
  { destruct (Rle_lt_dec (pow2 (-1021)) (hi - lo)) as [H|H]; [exact H|].
    exfalso. assert (Fw : F (hi - lo)).
    { apply exact_difference; try assumption.
      rewrite Rabs_pos_eq by lra. exact H. }
    pose proof (nearest_exact _ _ Hrng Fw). lra. }
  assert (Hlt : p < rng).
  { apply (draw_shrinks rng u p); try assumption; [lra|split; lra]. }
  (* no double lies strictly between the width and its rounding *)
  destruct (Rle_lt_dec p (hi - lo)) as [H|H]; [exact H|exfalso].
  apply (nearest_strict (hi - lo) rng p Hrng); [apply Hp|].
  rewrite !Rabs_pos_eq by lra. lra.
Qed.

Lemma uniform_product_bounds_inv (lo hi u rng p : R) :
  F lo -> F hi -> hi <= lo -> 0 <= u <= 1 - pow2 (-53) ->
  nearest (hi - lo) rng -> nearest (rng * u) p ->
  hi - lo <= p <= 0.
Proof.
  intros Hlo Hhi Hle Hu Hrng Hp.
  apply nearest_opp in Hrng. apply nearest_opp in Hp.
  replace (- (hi - lo)) with (- hi - - lo) in Hrng by lra.
  replace (- (rng * u)) with (- rng * u) in Hp by lra.
  pose proof (uniform_product_bounds (- lo) (- hi) u (- rng) (- p)
                (F_opp _ Hlo) (F_opp _ Hhi) ltac:(lra) Hu Hrng Hp).
  lra.
Qed.

Lemma is_b64_spec (d : dyadic) :
  is_b64 d = true <->
  (Z.abs (mant d) < 2 ^ 53)%Z /\ (emin <= expo d)%Z /\ (expo d <= emax)%Z.
Proof.
  unfold is_b64. rewrite !andb_true_iff, Z.ltb_lt, !Z.leb_le. tauto.
Qed.

Lemma is_b64_F (d : dyadic) : is_b64 d = true -> F (val d).
Proof.
  intros H. apply is_b64_spec in H. destruct H as [Hm [He _]].
  exists (mant d), (expo d). repeat split; assumption.
Qed.

Lemma F_abs (x : R) : F x -> F (Rabs x).
Proof.
  intros Hx. unfold Rabs. destruct (Rcase_abs x); [now apply F_opp|exact Hx].
Qed.

Lemma is_b64_below (d : dyadic) :
  is_b64 d = true -> Rabs (val d) < pow2 1024.
Proof.
  intros H. apply is_b64_spec in H. destruct H as [Hm [He1 He2]].
  unfold val. rewrite Rabs_mult, <- abs_IZR.
  pose proof (pow2_pos (expo d)) as HP. rewrite (Rabs_pos_eq (pow2 _)) by lra.
  assert (E : pow2 1024 = IZR (2 ^ 53) * pow2 971).
  { rewrite <- pow2_IZR, <- pow2_add by lia. reflexivity. }
  assert (H1 : pow2 (expo d) <= pow2 971) by (apply pow2_le; unfold emax in *; lia).
  assert (H2 : IZR (Z.abs (mant d)) < IZR (2 ^ 53)) by now apply IZR_lt.
  assert (H3 : 0 <= IZR (Z.abs (mant d))) by (apply IZR_le; lia).
  rewrite E. nra.
Qed.

Lemma val_sgn (m e q e' : Z) :
  m <> 0%Z ->
  nearest (IZR (Z.abs m) * pow2 e) (IZR q * pow2 e') ->
  nearest (IZR m * pow2 e) (IZR (Z.sgn m * q) * pow2 e').
Proof.
  intros Hm Hn. destruct (Z.lt_trichotomy m 0) as [H|[H|H]]; [|lia|].
  - rewrite (Z.sgn_neg m H). rewrite (Z.abs_neq m) in Hn by lia.
    apply nearest_opp in Hn. rewrite opp_IZR in Hn.
    replace (- (- IZR m * pow2 e)) with (IZR m * pow2 e) in Hn by lra.
    replace (IZR (-1 * q)) with (- IZR q) by (rewrite <- opp_IZR; f_equal; lia).
    replace (- IZR q * pow2 e') with (- (IZR q * pow2 e')) by lra. exact Hn.
  - rewrite (Z.sgn_pos m H). rewrite (Z.abs_eq m) in Hn by lia.
    now rewrite Z.mul_1_l.
Qed.

Lemma round_fin (d r : dyadic) :
  round d = Fin r -> is_b64 r = true /\ nearest (val d) (val r).
Proof.
  unfold round. destruct (Z.eqb_spec (mant d) 0) as [E|E].
  - intros [= <-]. split; [reflexivity|]. unfold val, dzero. rewrite E. cbn [mant expo].
    rewrite !Rmult_0_l. split; [exact F_0|].
    intros f _. rewrite Rminus_diag, Rabs_R0. apply Rabs_pos.
  - pose proof (round_pos_spec (Z.abs (mant d)) (expo d) ltac:(lia))
      as [[Hq0 Hq1] [He [Hn Hnear]]].
    destruct (round_pos (Z.abs (mant d)) (expo d)) as [q e'].
    cbn [fst snd] in *. destruct (Z.ltb_spec emax e') as [Ho|Ho]; [discriminate|].
    intros [= <-]. split.
    + apply is_b64_spec. cbn [mant expo]. split; [|split; assumption].
      destruct (Z.lt_trichotomy (mant d) 0) as [H|[H|H]]; [|lia|].
      * rewrite (Z.sgn_neg _ H). lia.
      * rewrite (Z.sgn_pos _ H). lia.
    + unfold val. cbn [mant expo]. now apply val_sgn.
Qed.

Lemma round_notfinite (d f : dyadic) :
  round d = NotFinite -> is_b64 f = true -> Rabs (val f) < Rabs (val d).
Proof.
  unfold round. destruct (Z.eqb_spec (mant d) 0) as [E|E]; [discriminate|].
  pose proof (round_pos_spec (Z.abs (mant d)) (expo d) ltac:(lia))
    as [[Hq0 Hq1] [He [Hn Hnear]]].
  destruct (round_pos (Z.abs (mant d)) (expo d)) as [q e'].
  cbn [fst snd] in *. destruct (Z.ltb_spec emax e') as [Ho|Ho]; [|discriminate].
  intros _ Hf. pose proof (is_b64_below f Hf) as Hb.
  assert (Ex : Rabs (val d) = IZR (Z.abs (mant d)) * pow2 (expo d)).
  { unfold val. rewrite Rabs_mult, <- abs_IZR.
    pose proof (pow2_pos (expo d)). now rewrite (Rabs_pos_eq (pow2 _)) by lra. }
  rewrite Ex. destruct (Rlt_le_dec (Rabs (val f))
                          (IZR (Z.abs (mant d)) * pow2 (expo d))) as [H|H];
    [exact H|exfalso].
  pose proof (nearest_le _ _ _ Hnear (F_abs _ (is_b64_F f Hf)) H) as Hc.
  destruct Hn as [Hn|Hn]; [|unfold emin, emax in *; lia].
  assert (E1024 : pow2 1024 = IZR (2 ^ 52) * pow2 972).
  { rewrite <- pow2_IZR, <- pow2_add by lia. reflexivity. }
  assert (H1 : pow2 972 <= pow2 e') by (apply pow2_le; unfold emax in *; lia).
  assert (H2 : IZR (2 ^ 52) <= IZR q) by now apply IZR_le.
  assert (H3 : 0 < IZR (2 ^ 52)) by (apply IZR_lt; reflexivity).
  pose proof (pow2_pos 972). nra.
Qed.

Lemma val_align (a : dyadic) (e : Z) :
  (e <= expo a)%Z -> val a = IZR (mant a * 2 ^ (expo a - e)) * pow2 e.
Proof.
  intros H. unfold val. rewrite <- (val_shift (mant a) (expo a) (expo a - e)) by lia.
  do 2 f_equal. lia.
Qed.

Lemma val_dadd (a b : dyadic) : val (dadd a b) = val a + val b.
Proof.
  set (e := Z.min (expo a) (expo b)).
  rewrite (val_align a e), (val_align b e) by (unfold e; lia).
  unfold dadd, val. cbn [mant expo]. fold e. rewrite plus_IZR. lra.
Qed.

Lemma val_dsub (a b : dyadic) : val (dsub a b) = val a - val b.
Proof.
  set (e := Z.min (expo a) (expo b)).
  rewrite (val_align a e), (val_align b e) by (unfold e; lia).
  unfold dsub, val. cbn [mant expo]. fold e. rewrite minus_IZR. lra.
Qed.

Lemma val_dmul (a b : dyadic) : val (dmul a b) = val a * val b.
Proof.
  unfold dmul, val. cbn [mant expo]. rewrite mult_IZR, pow2_add. lra.
Qed.

Lemma dleb_spec (a b : dyadic) : dleb a b = true <-> val a <= val b.
Proof.
  set (e := Z.min (expo a) (expo b)).
  rewrite (val_align a e), (val_align b e) by (unfold e; lia).
  unfold dleb. fold e. rewrite Z.leb_le. pose proof (pow2_pos e) as HP. split.
  - intros H. apply IZR_le in H. nra.
  - intros H. apply le_IZR. apply Rmult_le_reg_r in H; assumption.
Qed.

Lemma dltb_spec (a b : dyadic) : dltb a b = true <-> val a < val b.
Proof.
  set (e := Z.min (expo a) (expo b)).
  rewrite (val_align a e), (val_align b e) by (unfold e; lia).
  unfold dltb. fold e. rewrite Z.ltb_lt. pose proof (pow2_pos e) as HP. split.
  - intros H. apply IZR_lt in H. nra.
  - intros H. apply lt_IZR. apply Rmult_lt_reg_r in H; assumption.
Qed.

Lemma draw_of_range (k : Z) : 0 <= val (draw_of k) <= 1 - pow2 (-53).
Proof.
  unfold val, draw_of. cbn [mant expo].
  assert (H53 : (0 < 2 ^ 53)%Z) by (apply Z.pow_pos_nonneg; lia).
  pose proof (Z.mod_pos_bound k (2 ^ 53) H53) as [H0 H1].
  pose proof (pow2_pos (-53)) as HP.
  assert (E : IZR (2 ^ 53) * pow2 (-53) = 1).
  { rewrite <- pow2_IZR, <- pow2_add by lia. reflexivity. }
  assert (H2 : IZR (k mod 2 ^ 53) <= IZR (2 ^ 53) - 1).
  { rewrite <- minus_IZR. apply IZR_le. lia. }
  assert (H3 : 0 <= IZR (k mod 2 ^ 53)) by (apply IZR_le; lia).
  split; nra.
Qed.

Lemma draw_of_b64 (k : Z) : is_b64 (draw_of k) = true.
Proof.
  apply is_b64_spec. unfold draw_of. cbn [mant expo].
  assert (H53 : (0 < 2 ^ 53)%Z) by (apply Z.pow_pos_nonneg; lia).
  pose proof (Z.mod_pos_bound k (2 ^ 53) H53). unfold emin, emax. lia.
Qed.

Lemma affine_between (lo hi range : dyadic) (k : Z) :
  is_b64 lo = true -> is_b64 hi = true ->
  fsub (Fin hi) (Fin lo) = Fin range ->
  exists d : dyadic,
    affine lo range (draw_of k) = Fin d
    /\ is_b64 d = true
    /\ (val lo <= val hi -> val lo <= val d <= val hi)
    /\ (val hi <= val lo -> val hi <= val d <= val lo).
Proof.
  intros Hlo Hhi Hw. cbn [fsub] in Hw. apply round_fin in Hw.
  destruct Hw as [Hrb Hrn]. rewrite val_dsub in Hrn.
  pose proof (draw_of_range k) as Hu. pose proof (draw_of_b64 k) as Hub.
  set (u := draw_of k) in *.
  pose proof (is_b64_F lo Hlo) as Flo. pose proof (is_b64_F hi Hhi) as Fhi.
  pose proof (pow2_pos (-53)) as H53.
  unfold affine. cbn [fmul].
  destruct (round (dmul range u)) as [p|] eqn:Ep.
  2:{ exfalso. pose proof (round_notfinite _ range Ep Hrb) as H.
      rewrite val_dmul, Rabs_mult, (Rabs_pos_eq (val u)) in H by lra.
      pose proof (Rabs_pos (val range)). nra. }
  apply round_fin in Ep. destruct Ep as [Hpb Hpn]. rewrite val_dmul in Hpn.
  assert (Hsum : (val lo <= val hi -> val lo <= val lo + val p <= val hi)
                 /\ (val hi <= val lo -> val hi <= val lo + val p <= val lo)).
  { split; intros Hord.
    - pose proof (uniform_product_bounds _ _ _ _ _ Flo Fhi Hord Hu Hrn Hpn). lra.
    - pose proof (uniform_product_bounds_inv _ _ _ _ _ Flo Fhi Hord Hu Hrn Hpn).
      lra. }
  cbn [fadd]. destruct (round (dadd lo p)) as [v|] eqn:Ev.
  2:{ exfalso. pose proof (round_notfinite _ lo Ev Hlo) as H1.
      pose proof (round_notfinite _ hi Ev Hhi) as H2.
      rewrite val_dadd in H1, H2. destruct Hsum as [S1 S2].
      destruct (Rle_lt_dec (val lo) (val hi)) as [Hord|Hord].
      - specialize (S1 Hord). revert H1 H2. unfold Rabs.
        destruct (Rcase_abs (val lo)), (Rcase_abs (val hi)),
          (Rcase_abs (val lo + val p)); lra.
      - specialize (S2 (Rlt_le _ _ Hord)). revert H1 H2. unfold Rabs.
        destruct (Rcase_abs (val lo)), (Rcase_abs (val hi)),
          (Rcase_abs (val lo + val p)); lra. }
  exists v. split; [reflexivity|]. apply round_fin in Ev.
  destruct Ev as [Hvb Hvn]. rewrite val_dadd in Hvn. split; [exact Hvb|].
  destruct Hsum as [S1 S2]. split; intros Hord.
  - specialize (S1 Hord). split.
    + apply (nearest_ge _ _ _ Hvn Flo). lra.
    + apply (nearest_le _ _ _ Hvn Fhi). lra.
  - specialize (S2 Hord). split.
    + apply (nearest_ge _ _ _ Hvn Fhi). lra.
    + apply (nearest_le _ _ _ Hvn Flo). lra.
Qed.

(** *** Where rounding overflows *)

Lemma nearest_abs (x r : R) : nearest x r -> nearest (Rabs x) (Rabs r).
Proof.
  intros Hn. destruct (Rle_lt_dec 0 x) as [Hx|Hx].
  - pose proof (nearest_ge x r 0 Hn F_0 Hx) as Hr.
    now rewrite !Rabs_pos_eq by assumption.
  - pose proof (nearest_le x r 0 Hn F_0 ltac:(lra)) as Hr.
    rewrite !Rabs_left1 by lra. now apply nearest_opp.
Qed.

Lemma F_pow2_1024 : F (pow2 1024).
Proof.
  exists (2 ^ 52)%Z, 972%Z. split; [reflexivity|]. split; [unfold emin; lia|].
  rewrite <- pow2_IZR, <- pow2_add by lia. reflexivity.
Qed.

Lemma pow2_1024_split :
  pow2 1024 = IZR (2 ^ 53) * pow2 971 /\ pow2 971 = 2 * pow2 970.
Proof.
  split.
  - rewrite <- pow2_IZR, <- pow2_add by lia. reflexivity.
  - rewrite <- pow2_1, <- pow2_add. reflexivity.
Qed.

Lemma is_b64_largest (d : dyadic) :
  is_b64 d = true -> Rabs (val d) <= pow2 1024 - pow2 971.
Proof.
  intros H. apply is_b64_spec in H. destruct H as [Hm [He1 He2]].
  unfold val. rewrite Rabs_mult, <- abs_IZR.
  pose proof (pow2_pos (expo d)) as HP. rewrite (Rabs_pos_eq (pow2 _)) by lra.
  destruct pow2_1024_split as [E _].
  assert (H1 : pow2 (expo d) <= pow2 971) by (apply pow2_le; unfold emax in *; lia).
  assert (H2 : IZR (Z.abs (mant d)) <= IZR (2 ^ 53) - 1).
  { rewrite <- minus_IZR. apply IZR_le. lia. }
  assert (H3 : 0 <= IZR (Z.abs (mant d))) by (apply IZR_le; lia).
  rewrite E. nra.
Qed.

(** Above [2^1024 - 2^970] in magnitude a result is not finite. *)
Lemma round_above (d : dyadic) :
  pow2 1024 - pow2 970 < Rabs (val d) -> round d = NotFinite.
Proof.
  intros Hx. destruct (round d) as [r|] eqn:Er; [exfalso|reflexivity].
  apply round_fin in Er. destruct Er as [Hb Hn].
  apply nearest_abs in Hn. pose proof (is_b64_largest r Hb) as Hr.
  destruct pow2_1024_split as [_ E]. pose proof (pow2_pos 970) as HP.
  apply (nearest_strict _ _ _ Hn F_pow2_1024).
  rewrite (Rabs_left1 (Rabs (val r) - Rabs (val d))) by lra.
  unfold Rabs at 1. destruct (Rcase_abs (pow2 1024 - Rabs (val d))); lra.
Qed.

(** Below it the result is finite. *)
Lemma round_below (d : dyadic) :
  Rabs (val d) < pow2 1024 - pow2 970 -> exists r : dyadic, round d = Fin r.
Proof.
  intros Hx. destruct (round d) as [r|] eqn:Er; [now exists r|exfalso].
  revert Er. unfold round.
  destruct (Z.eqb_spec (mant d) 0) as [E|E]; [discriminate|].
  pose proof (round_pos_spec (Z.abs (mant d)) (expo d) ltac:(lia))
    as [[Hq0 Hq1] [He [Hn Hnear]]].
  destruct (round_pos (Z.abs (mant d)) (expo d)) as [q e'].
  cbn [fst snd] in *. destruct (Z.ltb_spec emax e') as [Ho|Ho]; [|discriminate].
  intros _.
  assert (Ex : Rabs (val d) = IZR (Z.abs (mant d)) * pow2 (expo d)).
  { unfold val. rewrite Rabs_mult, <- abs_IZR.
    pose proof (pow2_pos (expo d)). now rewrite (Rabs_pos_eq (pow2 _)) by lra. }
  rewrite <- Ex in Hnear.
  destruct Hn as [Hn|Hn]; [|unfold emin, emax in *; lia].
  assert (Hc : pow2 1024 <= IZR q * pow2 e').
  { assert (E1024 : pow2 1024 = IZR (2 ^ 52) * pow2 972).
    { rewrite <- pow2_IZR, <- pow2_add by lia. reflexivity. }
    assert (H1 : pow2 972 <= pow2 e') by (apply pow2_le; unfold emax in *; lia).
    assert (H2 : IZR (2 ^ 52) <= IZR q) by now apply IZR_le.
    assert (H3 : 0 < IZR (2 ^ 52)) by (apply IZR_lt; reflexivity).
    pose proof (pow2_pos 972). rewrite E1024. nra. }
  (* the largest double is nearer *)
  assert (FO : F (pow2 1024 - pow2 971)).
  { exists (2 ^ 53 - 1)%Z, 971%Z. split; [reflexivity|].
    split; [unfold emin; lia|].
    destruct pow2_1024_split as [E1 _]. rewrite E1, minus_IZR. lra. }
  destruct pow2_1024_split as [_ E2]. pose proof (pow2_pos 970) as HP.
  destruct (Rle_lt_dec (Rabs (val d)) (pow2 1024 - pow2 971)) as [Hlow|Hhigh].
  - pose proof (nearest_le _ _ _ Hnear FO Hlow). lra.
  - apply (nearest_strict _ _ _ Hnear FO).
    rewrite (Rabs_left1 (pow2 1024 - pow2 971 - Rabs (val d))) by lra.
    rewrite (Rabs_pos_eq (IZR q * pow2 e' - Rabs (val d))) by lra. lra.
Qed.

(** *** One element of [np.random.uniform] *)

(** The three roundings behind an element. *)
Lemma affine_spec (lo hi range u d : dyadic) :
  fsub (Fin hi) (Fin lo) = Fin range ->
  affine lo range u = Fin d ->
  exists p : dyadic,
    nearest (val hi - val lo) (val range)
    /\ nearest (val range * val u) (val p)
    /\ nearest (val lo + val p) (val d).
Proof.
  intros Hw Ha. cbn [fsub] in Hw. apply round_fin in Hw.
  destruct Hw as [_ Hrn]. rewrite val_dsub in Hrn.
  unfold affine in Ha. cbn [fmul] in Ha.
  destruct (round (dmul range u)) as [p|] eqn:Ep; [|discriminate].
  cbn [fadd] in Ha. apply round_fin in Ep. apply round_fin in Ha.
  destruct Ep as [_ Hpn]. destruct Ha as [_ Hvn].
  rewrite val_dmul in Hpn. rewrite val_dadd in Hvn.
  exists p. repeat split; (apply Hrn || apply Hpn || apply Hvn).
Qed.

(** *** Runs of the generator and of [uniform] *)

Lemma b64_advance_advance (j k : nat) (g : RandomState) :
  advance k (advance j g) = advance (j + k) g.
Proof.
  unfold advance; simpl. f_equal. lia.
Qed.

Lemma b64_advance_0 (g : RandomState) : advance 0 g = g.
Proof.
  destruct g as [tp c]. unfold advance; simpl. f_equal. lia.
Qed.

Lemma b64_upcoming_advance (j i : nat) (g : RandomState) :
  upcoming (advance j g) i = upcoming g (j + i).
Proof.
  unfold upcoming, advance; simpl. do 2 f_equal. lia.
Qed.

Lemma b64_random_samples_spec (k : nat) (g : RandomState) :
  random_samples k g = (map (upcoming g) (seq 0 k), advance k g).
Proof.
  revert g. induction k as [|k IH]; intros g.
  - simpl. now rewrite b64_advance_0.
  - cbn [random_samples]. unfold random_sample. rewrite IH.
    rewrite b64_advance_advance. cbn [seq map]. f_equal. f_equal.
    + unfold upcoming. do 2 f_equal. lia.
    + rewrite <- seq_shift, map_map. apply map_ext.
      intros i. now rewrite b64_upcoming_advance.
Qed.

Lemma b64_uniform_ok (n : Z) (lo hi range : dyadic) (g : RandomState) :
  (0 <= n)%Z -> fsub (Fin hi) (Fin lo) = Fin range ->
  uniform n lo hi g =
    (Ok (map (fun i => affine lo range (upcoming g i)) (seq 0 (Z.to_nat n))),
     advance (Z.to_nat n) g).
Proof.
  intros Hn Hw. unfold uniform, np_random_uniform. rewrite Hw.
  destruct (Z.ltb_spec n 0) as [Hneg|_]; [lia|].
  rewrite b64_random_samples_spec, map_map. reflexivity.
Qed.

Lemma uniform_overflow (n : Z) (lo hi : dyadic) (g : RandomState) :
  fsub (Fin hi) (Fin lo) = NotFinite ->
  uniform n lo hi g = (Raise OverflowError, g).
Proof.
  intros Hw. unfold uniform, np_random_uniform. now rewrite Hw.
Qed.

(** *** The model and the machine *)

(** On the sample doubles, taken two by two, addition, subtraction and
    multiplication give what the hardware gives, overflow included. *)
Example agrees_with_the_machine :
  agree fadd PrimFloat.add samples = true
  /\ agree fsub PrimFloat.sub samples = true
  /\ agree fmul PrimFloat.mul samples = true.
Proof.
  split; [|split]; vm_compute; reflexivity.
Qed.

End B64Facts.

(** ** [RNG.uniform] *)

Lemma affine_default (range d : B64.dyadic) (k : Z) :
  B64.fsub (B64.Fin B64.uniform_hi) (B64.Fin B64.uniform_lo) = B64.Fin range ->
  B64.affine B64.uniform_lo range (B64.draw_of k) = B64.Fin d ->
  B64.val d = B64.val (B64.draw_of k).
Proof.
  intros Hw Ha.
  destruct (B64Facts.affine_spec _ _ _ _ _ Hw Ha) as [p [Hr [Hp Hv]]].
  assert (E0 : B64.val B64.uniform_lo = 0).
  { unfold B64.val, B64.uniform_lo. cbn [B64.mant B64.expo]. lra. }
  assert (E1 : B64.val B64.uniform_hi = 1).
  { unfold B64.val, B64.uniform_hi. cbn [B64.mant B64.expo].
    rewrite B64Facts.pow2_0. lra. }
  rewrite E0, E1 in Hr. rewrite E0 in Hv.
  assert (F1 : B64.F (1 - 0)).
  { replace (1 - 0) with (B64.val B64.uniform_hi) by lra.
    now apply B64Facts.is_b64_F. }
  rewrite (B64Facts.nearest_exact _ _ Hr F1) in Hp.
  replace ((1 - 0) * B64.val (B64.draw_of k))
    with (B64.val (B64.draw_of k)) in Hp by lra.
  pose proof (B64Facts.is_b64_F _ (B64Facts.draw_of_b64 k)) as Fu.
  rewrite (B64Facts.nearest_exact _ _ Hp Fu) in Hv.
  replace (0 + B64.val (B64.draw_of k))
    with (B64.val (B64.draw_of k)) in Hv by lra.
  exact (B64Facts.nearest_exact _ _ Hv Fu).
Qed.

(** C2, as stated, fails twice in binary64.  A value can be [hi]: with
    [lo = 1.0], [hi = 2.0] and the largest draw [1 - 2^-53], the sum
    [1 + (1 - 2^-53)] lies half way between two doubles and rounds to
    [2.0], so the call returns [hi] itself.  And no sequence may come
    back: with [lo = -1e308 < hi = 1e308] the width [hi - lo] is not
    finite and the call raises [OverflowError], for [n = 0] too. *)
Lemma uniform_returns_upper_bound :
  (B64.is_b64 {| B64.mant := 1; B64.expo := 0 |} = true
   /\ B64.is_b64 {| B64.mant := 2; B64.expo := 0 |} = true
   /\ B64.val {| B64.mant := 1; B64.expo := 0 |}
      < B64.val {| B64.mant := 2; B64.expo := 0 |}
   /\ exists (v : B64.dyadic) (g' : B64.RandomState),
        B64.uniform 1 {| B64.mant := 1; B64.expo := 0 |}
                      {| B64.mant := 2; B64.expo := 0 |}
                      (B64.const_gen 9007199254740991)
        = (Ok [B64.Fin v], g')
        /\ B64.val v = B64.val {| B64.mant := 2; B64.expo := 0 |}
        /\ ~ B64.val v < B64.val {| B64.mant := 2; B64.expo := 0 |})
  /\ (B64.is_b64 {| B64.mant := -5010420900022432; B64.expo := 971 |} = true
      /\ B64.is_b64 {| B64.mant := 5010420900022432; B64.expo := 971 |} = true
      /\ B64.val {| B64.mant := -5010420900022432; B64.expo := 971 |}
         < B64.val {| B64.mant := 5010420900022432; B64.expo := 971 |}
      /\ B64.uniform 0 {| B64.mant := -5010420900022432; B64.expo := 971 |}
                       {| B64.mant := 5010420900022432; B64.expo := 971 |}
                       (B64.const_gen 9007199254740991)
         = (Raise OverflowError, B64.const_gen 9007199254740991)).
Proof.
  split.
  - split; [reflexivity|]. split; [reflexivity|]. split.
    { apply B64Facts.dltb_spec. reflexivity. }
    exists {| B64.mant := 4503599627370496; B64.expo := -51 |}.
    eexists. split; [vm_compute; reflexivity|].
    assert (E : B64.val {| B64.mant := 4503599627370496; B64.expo := -51 |}
                = B64.val {| B64.mant := 2; B64.expo := 0 |}).
    { apply Rle_antisym; apply B64Facts.dleb_spec; reflexivity. }
    split; [exact E|]. rewrite E. apply Rlt_irrefl.
  - split; [reflexivity|]. split; [reflexivity|]. split.
    { apply B64Facts.dltb_spec. vm_compute. reflexivity. }
    vm_compute. reflexivity.
Qed.

(** C2, amended: for a count [n >= 0] and doubles [lo < hi],
    [uniform(n, lo, hi)] raises [OverflowError] when [hi - lo] is not
    finite in binary64, which it is below [2^1024 - 2^970] and is not
    above; otherwise it returns a sequence of exactly [n] doubles, in the
    order of the draws, each [v] with [lo <= v <= hi]; for [n = 0] the
    sequence is empty, and with the default bounds the values are in
    [[0, 1)]. *)
Theorem uniform_count_and_closed_range
        (n : Z) (lo hi : B64.dyadic) (g : B64.RandomState) :
  (0 <= n)%Z -> B64.is_b64 lo = true -> B64.is_b64 hi = true ->
  B64.val lo < B64.val hi ->
  (B64.val hi - B64.val lo < B64.pow2 1024 - B64.pow2 970 ->
   exists range : B64.dyadic,
     B64.fsub (B64.Fin hi) (B64.Fin lo) = B64.Fin range)
  /\ (B64.pow2 1024 - B64.pow2 970 < B64.val hi - B64.val lo ->
      B64.fsub (B64.Fin hi) (B64.Fin lo) = B64.NotFinite)
  /\ (B64.fsub (B64.Fin hi) (B64.Fin lo) = B64.NotFinite ->
      B64.uniform n lo hi g = (Raise OverflowError, g))
  /\ (forall range : B64.dyadic,
        B64.fsub (B64.Fin hi) (B64.Fin lo) = B64.Fin range ->
        exists (vs : list B64.float) (g' : B64.RandomState),
          B64.uniform n lo hi g = (Ok vs, g')
          /\ length vs = Z.to_nat n
          /\ (forall i : nat, (i < Z.to_nat n)%nat ->
                nth_error vs i
                = Some (B64.affine lo range (B64.upcoming g i)))
          /\ Forall (fun v => exists d : B64.dyadic,
                       v = B64.Fin d /\ B64.is_b64 d = true
                       /\ B64.val lo <= B64.val d <= B64.val hi) vs
          /\ (n = 0%Z -> vs = [])
          /\ (lo = B64.uniform_lo -> hi = B64.uniform_hi ->
              Forall (fun v => exists d : B64.dyadic,
                        v = B64.Fin d /\ 0 <= B64.val d < 1) vs)).
Proof.
  intros Hn Hlo Hhi Hlt.
  split.
  { intros Hw. cbn [B64.fsub]. apply B64Facts.round_below.
    rewrite B64Facts.val_dsub, Rabs_pos_eq by lra. exact Hw. }
  split.
  { intros Hw. cbn [B64.fsub]. apply B64Facts.round_above.
    rewrite B64Facts.val_dsub, Rabs_pos_eq by lra. exact Hw. }
  split; [apply B64Facts.uniform_overflow|].
  intros range Hw. eexists. eexists.
  split; [exact (B64Facts.b64_uniform_ok n lo hi range g Hn Hw)|].
  split; [now rewrite length_map, length_seq|].
  split; [intros i Hi; now rewrite nth_error_map_seq by exact Hi|].
  split; [|split].
  - apply Forall_map_seq. intros i _. unfold B64.upcoming.
    destruct (B64Facts.affine_between lo hi range
                (B64.tape g (B64.cursor g + i)%nat) Hlo Hhi Hw)
      as [d [Ed [Hb [Hin _]]]].
    exists d. split; [exact Ed|]. split; [exact Hb|]. apply Hin. lra.
  - intros ->. reflexivity.
  - intros -> ->. apply Forall_map_seq. intros i _. unfold B64.upcoming.
    destruct (B64Facts.affine_between B64.uniform_lo B64.uniform_hi range
                (B64.tape g (B64.cursor g + i)%nat) Hlo Hhi Hw)
      as [d [Ed _]].
    exists d. split; [exact Ed|].
    rewrite (affine_default range d _ Hw Ed).
    pose proof (B64Facts.draw_of_range (B64.tape g (B64.cursor g + i)%nat))
      as [H0 H1].
    pose proof (B64Facts.pow2_pos (-53)). split; lra.
Qed.

Lemma uniform_count_and_closed_range_witness :
  (0 <= 3)%Z
  /\ B64.is_b64 {| B64.mant := -2; B64.expo := 0 |} = true
  /\ B64.is_b64 {| B64.mant := -1; B64.expo := 0 |} = true
  /\ B64.val {| B64.mant := -2; B64.expo := 0 |}
     < B64.val {| B64.mant := -1; B64.expo := 0 |}
  /\ exists (vs : list B64.float) (g' : B64.RandomState),
       B64.uniform 3 {| B64.mant := -2; B64.expo := 0 |}
                     {| B64.mant := -1; B64.expo := 0 |}
                     (B64.const_gen 4503599627370496) = (Ok vs, g')
       /\ length vs = 3%nat
       /\ Forall (fun v => exists d : B64.dyadic,
                    v = B64.Fin d /\ B64.is_b64 d = true
                    /\ B64.val {| B64.mant := -2; B64.expo := 0 |}
                       <= B64.val d
                       <= B64.val {| B64.mant := -1; B64.expo := 0 |}) vs.
Proof.
  assert (Hn : (0 <= 3)%Z) by lia.
  assert (Hlo : B64.is_b64 {| B64.mant := -2; B64.expo := 0 |} = true)
    by reflexivity.
  assert (Hhi : B64.is_b64 {| B64.mant := -1; B64.expo := 0 |} = true)
    by reflexivity.
  assert (Hlt : B64.val {| B64.mant := -2; B64.expo := 0 |}
                < B64.val {| B64.mant := -1; B64.expo := 0 |}).
  { apply B64Facts.dltb_spec. reflexivity. }
  split; [exact Hn|]. split; [exact Hlo|]. split; [exact Hhi|].
  split; [exact Hlt|].
  destruct (uniform_count_and_closed_range 3 _ _
              (B64.const_gen 4503599627370496) Hn Hlo Hhi Hlt)
    as [_ [_ [_ Hrun]]].
  destruct (Hrun {| B64.mant := 4503599627370496; B64.expo := -52 |}
              ltac:(vm_compute; reflexivity))
    as [vs [g' [Hu [Hlen [_ [Hall _]]]]]].
  exists vs, g'. repeat split; assumption.
Defined.

(** C10, as stated, fails twice in binary64.  The bounds are looked at:
    with [lo = -1e308] and [hi = 1e308] the width [hi - lo] is not
    finite and the call raises [OverflowError].  And the far bound is
    reached: with [lo = 5.0], [hi = 3.0] and the largest draw the call
    returns [3.0], which is [hi], outside [(hi, lo]]. *)
Lemma uniform_refuses_or_returns_hi :
  (B64.is_b64 {| B64.mant := -5010420900022432; B64.expo := 971 |} = true
   /\ B64.is_b64 {| B64.mant := 5010420900022432; B64.expo := 971 |} = true
   /\ B64.uniform 3 {| B64.mant := -5010420900022432; B64.expo := 971 |}
                    {| B64.mant := 5010420900022432; B64.expo := 971 |}
                    (B64.const_gen 0)
      = (Raise OverflowError, B64.const_gen 0))
  /\ (B64.is_b64 {| B64.mant := 5; B64.expo := 0 |} = true
      /\ B64.is_b64 {| B64.mant := 3; B64.expo := 0 |} = true
      /\ exists (v : B64.dyadic) (g' : B64.RandomState),
           B64.uniform 1 {| B64.mant := 5; B64.expo := 0 |}
                         {| B64.mant := 3; B64.expo := 0 |}
                         (B64.const_gen 9007199254740991)
           = (Ok [B64.Fin v], g')
           /\ ~ B64.val {| B64.mant := 3; B64.expo := 0 |} < B64.val v).
Proof.
  split.
  { split; [reflexivity|]. split; [reflexivity|]. vm_compute. reflexivity. }
  split; [reflexivity|]. split; [reflexivity|].
  exists {| B64.mant := 6755399441055744; B64.expo := -51 |}.
  eexists. split; [vm_compute; reflexivity|].
  intros H. apply B64Facts.dltb_spec in H. vm_compute in H. discriminate.
Qed.

(** C10, amended: [uniform] checks of its bounds only that [hi - lo] is
    finite in binary64 (it is below [2^1024 - 2^970] in magnitude and is
    not above) and raises [OverflowError] otherwise.  Then, for any
    doubles [lo] and [hi] in either order and a count [n >= 0], it
    returns [n] doubles, and every value is [lo + (hi - lo) t] for a [t]
    of [[0, 1]]; with [lo = hi] every value is [lo], and with [hi < lo]
    every value is in [[hi, lo]]. *)
Theorem uniform_bounds_either_order
        (n : Z) (lo hi : B64.dyadic) (g : B64.RandomState) :
  (0 <= n)%Z -> B64.is_b64 lo = true -> B64.is_b64 hi = true ->
  (Rabs (B64.val hi - B64.val lo) < B64.pow2 1024 - B64.pow2 970 ->
   exists range : B64.dyadic,
     B64.fsub (B64.Fin hi) (B64.Fin lo) = B64.Fin range)
  /\ (B64.pow2 1024 - B64.pow2 970 < Rabs (B64.val hi - B64.val lo) ->
      B64.fsub (B64.Fin hi) (B64.Fin lo) = B64.NotFinite)
  /\ (B64.fsub (B64.Fin hi) (B64.Fin lo) = B64.NotFinite ->
      B64.uniform n lo hi g = (Raise OverflowError, g))
  /\ (forall range : B64.dyadic,
        B64.fsub (B64.Fin hi) (B64.Fin lo) = B64.Fin range ->
        exists (vs : list B64.float) (g' : B64.RandomState),
          B64.uniform n lo hi g = (Ok vs, g')
          /\ length vs = Z.to_nat n
          /\ Forall (fun v => exists (d : B64.dyadic) (t : R),
                       v = B64.Fin d /\ 0 <= t <= 1
                       /\ B64.val d
                          = B64.val lo + (B64.val hi - B64.val lo) * t) vs
          /\ (B64.val lo = B64.val hi ->
              Forall (fun v => exists d : B64.dyadic,
                        v = B64.Fin d /\ B64.val d = B64.val lo) vs)
          /\ (B64.val hi < B64.val lo ->
              Forall (fun v => exists d : B64.dyadic,
                        v = B64.Fin d
                        /\ B64.val hi <= B64.val d <= B64.val lo) vs)).
Proof.
  intros Hn Hlo Hhi.
  split.
  { intros Hw. cbn [B64.fsub]. apply B64Facts.round_below.
    now rewrite B64Facts.val_dsub. }
  split.
  { intros Hw. cbn [B64.fsub]. apply B64Facts.round_above.
    now rewrite B64Facts.val_dsub. }
  split; [apply B64Facts.uniform_overflow|].
  intros range Hw. eexists. eexists.
  split; [exact (B64Facts.b64_uniform_ok n lo hi range g Hn Hw)|].
  split; [now rewrite length_map, length_seq|].
  assert (Hel : forall i : nat, exists d : B64.dyadic,
             B64.affine lo range (B64.upcoming g i) = B64.Fin d
             /\ (B64.val lo <= B64.val hi ->
                 B64.val lo <= B64.val d <= B64.val hi)
             /\ (B64.val hi <= B64.val lo ->
                 B64.val hi <= B64.val d <= B64.val lo)).
  { intros i. unfold B64.upcoming.
    destruct (B64Facts.affine_between lo hi range
                (B64.tape g (B64.cursor g + i)%nat) Hlo Hhi Hw)
      as [d [Ed [_ [H1 H2]]]].
    exists d. repeat split; (exact Ed || apply H1 || apply H2); assumption. }
  split; [|split].
  - apply Forall_map_seq. intros i _. destruct (Hel i) as [d [Ed [H1 H2]]].
    destruct (Req_dec (B64.val lo) (B64.val hi)) as [Heq|Hne].
    + exists d, 0. split; [exact Ed|]. split; [lra|].
      specialize (H1 ltac:(lra)). lra.
    + exists d, ((B64.val d - B64.val lo) / (B64.val hi - B64.val lo)).
      split; [exact Ed|]. split; [|field; lra].
      destruct (Rle_lt_dec (B64.val lo) (B64.val hi)) as [Ho|Ho].
      * specialize (H1 Ho).
        assert (Hpos : 0 < B64.val hi - B64.val lo) by lra.
        split.
        -- apply Rmult_le_pos; [lra|]. left. now apply Rinv_0_lt_compat.
        -- apply Rmult_le_reg_r with (B64.val hi - B64.val lo); [exact Hpos|].
           replace ((B64.val d - B64.val lo) / (B64.val hi - B64.val lo)
                    * (B64.val hi - B64.val lo))
             with (B64.val d - B64.val lo) by (field; lra). lra.
      * specialize (H2 (Rlt_le _ _ Ho)).
        assert (Hpos : 0 < B64.val lo - B64.val hi) by lra.
        replace ((B64.val d - B64.val lo) / (B64.val hi - B64.val lo))
          with ((B64.val lo - B64.val d) / (B64.val lo - B64.val hi))
          by (field; lra).
        split.
        -- apply Rmult_le_pos; [lra|]. left. now apply Rinv_0_lt_compat.
        -- apply Rmult_le_reg_r with (B64.val lo - B64.val hi); [exact Hpos|].
           replace ((B64.val lo - B64.val d) / (B64.val lo - B64.val hi)
                    * (B64.val lo - B64.val hi))
             with (B64.val lo - B64.val d) by (field; lra). lra.
  - intros Heq. apply Forall_map_seq. intros i _.
    destruct (Hel i) as [d [Ed [H1 _]]]. exists d. split; [exact Ed|].
    specialize (H1 ltac:(lra)). lra.
  - intros Hlt. apply Forall_map_seq. intros i _.
    destruct (Hel i) as [d [Ed [_ H2]]]. exists d. split; [exact Ed|].
    apply H2. lra.
Qed.

Lemma uniform_bounds_either_order_witness :
  (0 <= 2)%Z
  /\ B64.is_b64 {| B64.mant := 5; B64.expo := 0 |} = true
  /\ B64.is_b64 {| B64.mant := 3; B64.expo := 0 |} = true
  /\ exists (vs : list B64.float) (g' : B64.RandomState),
       B64.uniform 2 {| B64.mant := 5; B64.expo := 0 |}
                     {| B64.mant := 3; B64.expo := 0 |}
                     (B64.const_gen 9007199254740991) = (Ok vs, g')
       /\ length vs = 2%nat
       /\ Forall (fun v => exists d : B64.dyadic,
                    v = B64.Fin d
                    /\ B64.val {| B64.mant := 3; B64.expo := 0 |}
                       <= B64.val d
                       <= B64.val {| B64.mant := 5; B64.expo := 0 |}) vs.
Proof.
  assert (Hn : (0 <= 2)%Z) by lia.
  assert (Hlo : B64.is_b64 {| B64.mant := 5; B64.expo := 0 |} = true)
    by reflexivity.
  assert (Hhi : B64.is_b64 {| B64.mant := 3; B64.expo := 0 |} = true)
    by reflexivity.
  split; [exact Hn|]. split; [exact Hlo|]. split; [exact Hhi|].
  destruct (uniform_bounds_either_order 2 _ _
              (B64.const_gen 9007199254740991) Hn Hlo Hhi)
    as [_ [_ [_ Hrun]]].
  destruct (Hrun {| B64.mant := -4503599627370496; B64.expo := -51 |}
              ltac:(vm_compute; reflexivity))
    as [vs [g' [Hu [Hlen [_ [_ Hinv]]]]]].
  exists vs, g'. split; [exact Hu|]. split; [exact Hlen|].
  apply Hinv. apply B64Facts.dltb_spec. reflexivity.
Defined.

(** C9: for a negative count [n], [uniform(n, lo, hi)] raises instead of
    returning a sequence, and so does [sphere(n)], whose first statement
    is that call; no draw is consumed. *)
Theorem negative_count_raises (n : Z) (lo hi : R) (g : RandomState) :
  (n < 0)%Z ->
  RNG.uniform n lo hi g = (Raise ValueError, g)
  /\ RNG.sphere n g = (Raise ValueError, g).
Proof.
  intros Hn. split.
  - unfold RNG.uniform. now apply np_random_uniform_negative.
  - unfold RNG.sphere, RNG.sphere_body, bind, RNG.uniform.
    now rewrite np_random_uniform_negative.
Qed.

Lemma negative_count_raises_witness :
  (-1 < 0)%Z /\
  RNG.uniform (-1) 0.0 1.0 (const_gen half_draw)
    = (Raise ValueError, const_gen half_draw)
  /\ RNG.sphere (-1) (const_gen half_draw)
    = (Raise ValueError, const_gen half_draw).
Proof.
  assert (Hn : (-1 < 0)%Z) by lia.
  split; [exact Hn|].
  exact (negative_count_raises (-1) 0.0 1.0 (const_gen half_draw) Hn).
Defined.

(** ** [RNG.sphere]: the samples and the angles *)

(** C5, as stated (every sample [u] of [sphere] strictly between
    [1e-6] and [1 - 1e-6]), fails: when the generator's draw is [0] the
    sample is the lower end [1e-6] itself. *)
Lemma sphere_sample_open_interval_fails :
  exists (l : RNG.sphere_locals) (g' : RandomState),
    RNG.sphere_body 1 (const_gen zero_draw) = (Ok l, g')
    /\ RNG.l_u l = [1.0e-6]
    /\ ~ Forall (fun u => 1.0e-6 < u < 1.0 - 1.0e-6) (RNG.l_u l).
Proof.
  eexists. eexists. split; [apply sphere_body_ok; lia|].
  assert (Hu : RNG.l_u (locals_of 1 (const_gen zero_draw)) = [1.0e-6]).
  { unfold locals_of. cbn [RNG.l_u].
    change (Z.to_nat 1) with 1%nat. cbn [seq map]. f_equal.
    unfold u_of, upcoming, const_gen, zero_draw. cbn [tape draw_val]. lra. }
  split; [exact Hu|]. rewrite Hu. intros Hall.
  apply Forall_inv in Hall. lra.
Qed.

(** C5, amended: every sample [u] of [sphere] is in the half-open
    interval [[1e-6, 1 - 1e-6)]: it is [1e-6 + (1 - 2e-6) r] for the draw
    [r] of the generator, at least [1e-6], and below [1 - 1e-6]. *)
Theorem sphere_sample_half_open (n : Z) (g : RandomState) :
  (0 <= n)%Z ->
  exists (l : RNG.sphere_locals) (g' : RandomState),
    RNG.sphere_body n g = (Ok l, g')
    /\ length (RNG.l_u l) = Z.to_nat n
    /\ Forall (fun u => 1.0e-6 <= u < 1.0 - 1.0e-6) (RNG.l_u l).
Proof.
  intros Hn. eexists. eexists. split; [now apply sphere_body_ok|].
  cbn [locals_of RNG.l_u]. split.
  - now rewrite length_map, length_seq.
  - apply Forall_map_seq. intros i _. apply u_of_range.
Qed.

Lemma sphere_sample_half_open_witness :
  (0 <= 2)%Z /\
  exists (l : RNG.sphere_locals) (g' : RandomState),
    RNG.sphere_body 2 (const_gen zero_draw) = (Ok l, g')
    /\ length (RNG.l_u l) = 2%nat
    /\ Forall (fun u => 1.0e-6 <= u < 1.0 - 1.0e-6) (RNG.l_u l).
Proof.
  assert (Hn : (0 <= 2)%Z) by lia.
  split; [exact Hn|].
  exact (sphere_sample_half_open 2 (const_gen zero_draw) Hn).
Defined.

(** C6: in [sphere], every [cos_t] is strictly inside [(-1, 1)], so
    [np.arccos] is applied inside its domain and gives no NaN; every
    polar angle is strictly inside [(0, PI)]; and no returned point has
    [z] equal to [1] or to [-1]. *)
Theorem sphere_avoids_poles (n : Z) (g : RandomState) :
  (0 <= n)%Z ->
  exists (l : RNG.sphere_locals) (pts : list point) (g' : RandomState),
    RNG.sphere_body n g = (Ok l, g')
    /\ RNG.sphere n g = (Ok pts, g')
    /\ Forall (fun c => -1 < c < 1) (RNG.l_cos_t l)
    /\ RNG.l_t l = map np_arccos (RNG.l_cos_t l)
    /\ Forall (fun t => exists th : R, t = Some th /\ 0 < th < PI) (RNG.l_t l)
    /\ Forall (fun p => exists z : R,
                 coord_z p = Some z /\ z <> 1 /\ z <> -1) pts.
Proof.
  intros Hn. eexists. eexists. eexists.
  split; [now apply sphere_body_ok|]. split; [now apply sphere_ok|].
  pose proof z_lo_hi_inside as [Hlo Hhi].
  rewrite sphere_points. cbn [locals_of RNG.l_cos_t RNG.l_t].
  repeat split.
  - rewrite map_map. apply Forall_map_seq. intros i _.
    pose proof (cos_t_range (upcoming g i)) as [Hl Hh]. lra.
  - rewrite !map_map. apply Forall_map_seq. intros i _.
    pose proof (cos_t_range (upcoming g i)) as [Hl Hh].
    exists (acos (2 * u_of (upcoming g i) - 1.0)). split.
    + apply np_arccos_defined. lra.
    + apply acos_bound_lt. lra.
  - apply Forall_map_seq. intros i _. rewrite point_of_draws.
    pose proof (cos_t_range (upcoming g i)) as [Hl Hh].
    exists (2 * u_of (upcoming g i) - 1.0). cbn [coord_z snd].
    repeat split; lra.
Qed.

Lemma sphere_avoids_poles_witness :
  (0 <= 1)%Z /\
  exists (l : RNG.sphere_locals) (pts : list point) (g' : RandomState),
    RNG.sphere_body 1 (const_gen zero_draw) = (Ok l, g')
    /\ RNG.sphere 1 (const_gen zero_draw) = (Ok pts, g')
    /\ Forall (fun c => -1 < c < 1) (RNG.l_cos_t l)
    /\ Forall (fun p => exists z : R,
                 coord_z p = Some z /\ z <> 1 /\ z <> -1) pts.
Proof.
  assert (Hn : (0 <= 1)%Z) by lia.
  split; [exact Hn|].
  destruct (sphere_avoids_poles 1 (const_gen zero_draw) Hn)
    as [l [pts [g' [Hb [Hs [Hc [_ [_ Hz]]]]]]]].
  exists l, pts, g'. repeat split; assumption.
Defined.

(** The event "the affine image of [r] is at most [c]" is the event
    "[r] is at most the uniform distribution function at [c]". *)
Lemma affine_cdf (a b r c : R) :
  a < b -> (a + (b - a) * r <= c <-> r <= uniform_cdf a b c).
Proof.
  intros Hab. unfold uniform_cdf.
  assert (Hpos : 0 < b - a) by lra.
  split; intros H.
  - apply Rmult_le_reg_r with (b - a); [exact Hpos|].
    replace ((c - a) / (b - a) * (b - a)) with (c - a) by (field; lra). lra.
  - apply Rmult_le_compat_r with (r := b - a) in H; [|lra].
    replace ((c - a) / (b - a) * (b - a)) with (c - a) in H by (field; lra).
    lra.
Qed.

Lemma two_PI_pos : 0 < 2 * PI.
Proof.
  pose proof PI_RGT_0. lra.
Qed.

Lemma phi_of_draw (r : R) : phi_of r = 0 + (2 * PI - 0) * r.
Proof.
  unfold phi_of. rewrite v_of_draw. lra.
Qed.

Lemma phi_of_range (r : unit_draw) : 0 <= phi_of r < 2 * PI.
Proof.
  rewrite phi_of_draw. apply affine_draw_bounds. exact two_PI_pos.
Qed.

(** C7: in [sphere], every azimuthal angle [phi] given to the coordinate
    conversion has [0 <= phi < 2 PI]; it is [2 PI u] for the draw [u] of
    [[0, 1)] that the second call of [uniform] returned, so that
    [phi <= c] exactly when [u] is at most the distribution function at
    [c] of the uniform law on [[0, 2 PI]]. *)
Theorem sphere_phi_range (n : Z) (g : RandomState) :
  (0 <= n)%Z ->
  exists (l : RNG.sphere_locals) (g' : RandomState),
    RNG.sphere_body n g = (Ok l, g')
    /\ length (RNG.l_phi l) = Z.to_nat n
    /\ Forall (fun phi => 0 <= phi < 2 * PI) (RNG.l_phi l)
    /\ forall i : nat, (i < Z.to_nat n)%nat ->
         exists u : unit_draw,
           u = upcoming g (Z.to_nat n + i)
           /\ nth_error (RNG.l_v l) i = Some (draw_val u)
           /\ nth_error (RNG.l_phi l) i = Some (2 * PI * u)
           /\ forall c : R, 2 * PI * u <= c <-> u <= uniform_cdf 0 (2 * PI) c.
Proof.
  intros Hn. eexists. eexists. split; [now apply sphere_body_ok|].
  cbn [locals_of RNG.l_phi RNG.l_v]. repeat split.
  - now rewrite !length_map, length_seq.
  - rewrite map_map. apply Forall_map_seq. intros i _.
    apply (phi_of_range (upcoming (advance (Z.to_nat n) g) i)).
  - intros i Hi. exists (upcoming g (Z.to_nat n + i)).
    split; [reflexivity|]. split; [|split].
    + rewrite nth_error_map_seq by exact Hi.
      now rewrite v_of_draw, upcoming_advance.
    + rewrite map_map, nth_error_map_seq by exact Hi.
      rewrite v_of_draw, upcoming_advance. f_equal. lra.
    + intros c. rewrite <- affine_cdf by exact two_PI_pos.
      split; intros H; lra.
Qed.

Lemma sphere_phi_range_witness :
  (0 <= 2)%Z /\
  exists (l : RNG.sphere_locals) (g' : RandomState),
    RNG.sphere_body 2 (const_gen half_draw) = (Ok l, g')
    /\ length (RNG.l_phi l) = 2%nat
    /\ Forall (fun phi => 0 <= phi < 2 * PI) (RNG.l_phi l).
Proof.
  assert (Hn : (0 <= 2)%Z) by lia.
  split; [exact Hn|].
  destruct (sphere_phi_range 2 (const_gen half_draw) Hn)
    as [l [g' [Hb [Hlen [Hall _]]]]].
  exists l, g'. repeat split; assumption.
Defined.

(** ** [RNG.sphere]: the points *)

(** C1: for a count [n >= 0], [sphere(n)] returns a sequence of exactly
    [n] triples [(x, y, z)] of numbers, in the order of the draws, each
    of Euclidean norm [1] (so within [1e-9] of [1]); for [n = 0] the
    sequence is empty. *)
Theorem sphere_count_and_norm (n : Z) (g : RandomState) :
  (0 <= n)%Z ->
  exists (pts : list point) (g' : RandomState),
    RNG.sphere n g = (Ok pts, g')
    /\ length pts = Z.to_nat n
    /\ (forall i : nat, (i < Z.to_nat n)%nat ->
          nth_error pts i
          = Some (point_of (upcoming g i) (upcoming g (Z.to_nat n + i))))
    /\ Forall (fun p => exists x y z : R,
                 p = (Some x, Some y, Some z)
                 /\ x * x + y * y + z * z = 1
                 /\ norm3 x y z = 1
                 /\ Rabs (norm3 x y z - 1.0) <= 1.0e-9) pts
    /\ (n = 0%Z -> pts = []).
Proof.
  intros Hn. eexists. eexists. split; [now apply sphere_ok|].
  rewrite sphere_points. repeat split.
  - now rewrite length_map, length_seq.
  - intros i Hi. rewrite nth_error_map_seq by exact Hi.
    now rewrite upcoming_advance.
  - apply Forall_map_seq. intros i _. rewrite point_of_draws.
    pose proof (cos_t_range (upcoming g i)) as [Hl Hh].
    pose proof z_lo_hi_inside as [Hlo Hhi].
    set (c := 2 * u_of (upcoming g i) - 1.0) in *.
    set (phi := phi_of (upcoming (advance (Z.to_nat n) g) i)).
    assert (Hc : cos (acos c) = c) by (apply cos_acos; lra).
    exists (sin (acos c) * cos phi), (sin (acos c) * sin phi), c.
    split; [reflexivity|].
    pose proof (spherical_unit (acos c) phi) as Hsq. rewrite Hc in Hsq.
    pose proof (norm3_spherical (acos c) phi) as Hnorm. rewrite Hc in Hnorm.
    rewrite Hnorm. repeat split; [exact Hsq|].
    replace (1 - 1.0) with 0 by lra. rewrite Rabs_R0. lra.
  - intros ->. reflexivity.
Qed.

Lemma sphere_count_and_norm_witness :
  (0 <= 1)%Z /\
  exists (pts : list point) (g' : RandomState),
    RNG.sphere 1 (const_gen half_draw) = (Ok pts, g')
    /\ length pts = 1%nat.
Proof.
  assert (Hn : (0 <= 1)%Z) by lia.
  split; [exact Hn|].
  destruct (sphere_count_and_norm 1 (const_gen half_draw) Hn)
    as [pts [g' [Hs [Hlen _]]]].
  exists pts, g'. split; assumption.
Defined.

(** ** The store: what a call allocates and what it leaves alone *)

Lemma nth_error_snoc {A : Type} (l : list A) (c : A) :
  nth_error (l ++ [c]) (length l) = Some c.
Proof.
  rewrite nth_error_app2 by lia. now rewrite Nat.sub_diag.
Qed.

Lemma preserves_refl (w : Mem.world) : Mem.preserves w w.
Proof.
  intros a c H. exact H.
Qed.

Lemma preserves_trans (w1 w2 w3 : Mem.world) :
  Mem.preserves w1 w2 -> Mem.preserves w2 w3 -> Mem.preserves w1 w3.
Proof.
  intros H12 H23 a c H. apply H23, H12, H.
Qed.

Lemma preserves_app (g g' : RandomState) (h new : list Mem.cell) :
  Mem.preserves {| Mem.gen := g; Mem.heap := h |}
                {| Mem.gen := g'; Mem.heap := h ++ new |}.
Proof.
  intros a c H. cbn [Mem.heap] in *.
  rewrite nth_error_app1; [exact H|].
  apply nth_error_Some. congruence.
Qed.

Lemma fresh_not_aliased (w : Mem.world) (a b : Mem.array) :
  Mem.fresh_in w a -> Mem.allocated_in w b -> ~ Mem.aliases a b.
Proof.
  unfold Mem.fresh_in, Mem.allocated_in, Mem.aliases. lia.
Qed.

Lemma m_random_uniform_run (low high : R) (size : Z) (w : Mem.world) :
  (0 <= size)%Z ->
  Mem.m_random_uniform low high size w =
    (Ok {| Mem.buffer := length (Mem.heap w); Mem.transposed := false |},
     {| Mem.gen := advance (Z.to_nat size) (Mem.gen w);
        Mem.heap := Mem.heap w ++
          [Mem.Numbers (map (fun i => low + (high - low) * upcoming (Mem.gen w) i)
                            (seq 0 (Z.to_nat size)))] |}).
Proof.
  intros Hn. unfold Mem.m_random_uniform, Mem.with_generator, bind.
  rewrite np_random_uniform_ok by exact Hn. reflexivity.
Qed.

Lemma m_random_uniform_negative (low high : R) (size : Z) (w : Mem.world) :
  (size < 0)%Z ->
  Mem.m_random_uniform low high size w = (Raise ValueError, w).
Proof.
  intros Hn. unfold Mem.m_random_uniform, Mem.with_generator, bind.
  rewrite np_random_uniform_negative by exact Hn. now destruct w.
Qed.

Lemma m_scalar_mul_run (c : R) (a : Mem.array) (w : Mem.world) (d : ndarray) :
  nth_error (Mem.heap w) (Mem.buffer a) = Some (Mem.Numbers d) ->
  Mem.m_scalar_mul c a w =
    (Ok {| Mem.buffer := length (Mem.heap w); Mem.transposed := false |},
     {| Mem.gen := Mem.gen w;
        Mem.heap := Mem.heap w ++ [Mem.Numbers (map (fun x => c * x) d)] |}).
Proof.
  intros H. unfold Mem.m_scalar_mul, Mem.load_numbers, bind. now rewrite H.
Qed.

Lemma m_sub_scalar_run (c : R) (a : Mem.array) (w : Mem.world) (d : ndarray) :
  nth_error (Mem.heap w) (Mem.buffer a) = Some (Mem.Numbers d) ->
  Mem.m_sub_scalar a c w =
    (Ok {| Mem.buffer := length (Mem.heap w); Mem.transposed := false |},
     {| Mem.gen := Mem.gen w;
        Mem.heap := Mem.heap w ++ [Mem.Numbers (map (fun x => x - c) d)] |}).
Proof.
  intros H. unfold Mem.m_sub_scalar, Mem.load_numbers, bind. now rewrite H.
Qed.

Lemma m_arccos_run (a : Mem.array) (w : Mem.world) (d : ndarray) :
  nth_error (Mem.heap w) (Mem.buffer a) = Some (Mem.Numbers d) ->
  Mem.m_arccos a w =
    (Ok {| Mem.buffer := length (Mem.heap w); Mem.transposed := false |},
     {| Mem.gen := Mem.gen w;
        Mem.heap := Mem.heap w ++ [Mem.Angles (map np_arccos d)] |}).
Proof.
  intros H. unfold Mem.m_arccos, Mem.load_numbers, bind. now rewrite H.
Qed.

Lemma m_sphere_to_cart_run (t phi : Mem.array) (w : Mem.world)
      (dt : list float) (dphi : ndarray) :
  nth_error (Mem.heap w) (Mem.buffer t) = Some (Mem.Angles dt) ->
  nth_error (Mem.heap w) (Mem.buffer phi) = Some (Mem.Numbers dphi) ->
  Mem.m_sphere_to_cart t phi w =
    (Ok {| Mem.buffer := length (Mem.heap w); Mem.transposed := false |},
     {| Mem.gen := Mem.gen w;
        Mem.heap := Mem.heap w ++ [Mem.Rows (sphere_to_cart dt dphi)] |}).
Proof.
  intros Ht Hphi.
  unfold Mem.m_sphere_to_cart, Mem.load_angles, Mem.load_numbers, bind.
  now rewrite Ht, Hphi.
Qed.

Lemma mem_uniform_run (n : Z) (lo hi : R) (w : Mem.world) :
  (0 <= n)%Z ->
  Mem.uniform n lo hi w =
    (Ok {| Mem.buffer := length (Mem.heap w); Mem.transposed := false |},
     {| Mem.gen := advance (Z.to_nat n) (Mem.gen w);
        Mem.heap := Mem.heap w ++
          [Mem.Numbers (map (fun i => lo + (hi - lo) * upcoming (Mem.gen w) i)
                            (seq 0 (Z.to_nat n)))] |}).
Proof.
  intros Hn. unfold Mem.uniform. now apply m_random_uniform_run.
Qed.

Lemma mem_sphere_run (n : Z) (w : Mem.world) :
  (0 <= n)%Z ->
  Mem.sphere n w =
    (Ok {| Mem.buffer := (length (Mem.heap w) + 6)%nat;
           Mem.transposed := true |},
     {| Mem.gen := advance (Z.to_nat n) (advance (Z.to_nat n) (Mem.gen w));
        Mem.heap := Mem.heap w ++ sphere_cells n (Mem.gen w) |}).
Proof.
  intros Hn. unfold Mem.sphere, bind.
  rewrite mem_uniform_run by exact Hn.
  erewrite m_scalar_mul_run by lookup_buffer @nth_error_snoc.
  erewrite m_sub_scalar_run by lookup_buffer @nth_error_snoc.
  erewrite m_arccos_run by lookup_buffer @nth_error_snoc.
  rewrite mem_uniform_run by exact Hn.
  erewrite m_scalar_mul_run by lookup_buffer @nth_error_snoc.
  erewrite m_sphere_to_cart_run by lookup_buffer @nth_error_snoc.
  unfold ret, Mem.m_T. cbn [Mem.buffer Mem.transposed Mem.heap Mem.gen negb].
  f_equal.
  - f_equal. f_equal. rewrite !length_app. simpl. lia.
  - f_equal. rewrite <- !app_assoc. f_equal.
    unfold sphere_cells, locals_of.
    cbn [RNG.l_u RNG.l_cos_t RNG.l_t RNG.l_v RNG.l_phi app].
    rewrite !map_map. reflexivity.
Qed.

Lemma mem_uniform_negative (n : Z) (lo hi : R) (w : Mem.world) :
  (n < 0)%Z -> Mem.uniform n lo hi w = (Raise ValueError, w).
Proof.
  intros Hn. unfold Mem.uniform. now apply m_random_uniform_negative.
Qed.

Lemma mem_sphere_negative (n : Z) (w : Mem.world) :
  (n < 0)%Z -> Mem.sphere n w = (Raise ValueError, w).
Proof.
  intros Hn. unfold Mem.sphere, bind.
  now rewrite mem_uniform_negative by exact Hn.
Qed.

(** Whatever either method returns, it has just allocated, and what was
    in the store is still there. *)
Lemma call_footprint (m : Z) (lo hi : R) (w w2 : Mem.world) (b : Mem.array) :
  Mem.uniform m lo hi w = (Ok b, w2) \/ Mem.sphere m w = (Ok b, w2) ->
  Mem.preserves w w2 /\ Mem.fresh_in w b /\ Mem.allocated_in w2 b.
Proof.
  intros Hcall. destruct (Z.lt_ge_cases m 0) as [Hneg|Hpos].
  - destruct Hcall as [H|H].
    + rewrite mem_uniform_negative in H by exact Hneg. discriminate.
    + rewrite mem_sphere_negative in H by exact Hneg. discriminate.
  - destruct Hcall as [H|H].
    + rewrite mem_uniform_run in H by exact Hpos.
      injection H as <- <-. destruct w as [g h].
      split; [apply preserves_app|].
      unfold Mem.fresh_in, Mem.allocated_in.
      cbn [Mem.heap Mem.buffer]. rewrite length_app. simpl. lia.
    + rewrite mem_sphere_run in H by exact Hpos.
      injection H as <- <-. destruct w as [g h].
      split; [apply preserves_app|].
      unfold Mem.fresh_in, Mem.allocated_in.
      cbn [Mem.heap Mem.buffer]. rewrite length_app. simpl. lia.
Qed.

Lemma read_numbers_preserved (w w' : Mem.world) (a : Mem.array) (d : ndarray) :
  Mem.preserves w w' ->
  Mem.read_numbers w a = Some d -> Mem.read_numbers w' a = Some d.
Proof.
  intros Hp. unfold Mem.read_numbers.
  destruct (nth_error (Mem.heap w) (Mem.buffer a)) as [c|] eqn:Hc;
    [|discriminate].
  now rewrite (Hp _ _ Hc).
Qed.

Lemma read_points_preserved (w w' : Mem.world) (a : Mem.array)
      (d : list point) :
  Mem.preserves w w' ->
  Mem.read_points w a = Some d -> Mem.read_points w' a = Some d.
Proof.
  intros Hp. unfold Mem.read_points.
  destruct (nth_error (Mem.heap w) (Mem.buffer a)) as [c|] eqn:Hc;
    [|discriminate].
  now rewrite (Hp _ _ Hc).
Qed.

Lemma later_call_apart (w w2 : Mem.world) (a b : Mem.array)
      (m : Z) (lo hi : R) :
  Mem.allocated_in w a ->
  Mem.uniform m lo hi w = (Ok b, w2) \/ Mem.sphere m w = (Ok b, w2) ->
  ~ Mem.aliases a b /\ Mem.preserves w w2.
Proof.
  intros Ha Hcall. apply call_footprint in Hcall.
  destruct Hcall as [Hp [Hf _]]. split; [|exact Hp].
  intros Hal. apply (fresh_not_aliased w b a Hf Ha).
  unfold Mem.aliases in *. congruence.
Qed.

(** C8: a call of [uniform(n, lo, hi)] or of [sphere(n)] changes nothing
    but the position of the generator: every buffer and object of the
    store, an [RNG] instance among them, is as it was; the array
    returned reads a buffer allocated by the call, which no array of the
    caller reads and which no later call returns or changes.  The array
    holds the values that the method computes.  An [RNG] instance has
    no attribute. *)
Theorem calls_only_draw_and_allocate (n : Z) (lo hi : R) (w : Mem.world) :
  (0 <= n)%Z ->
  (exists (a : Mem.array) (w' : Mem.world) (vs : ndarray),
      Mem.uniform n lo hi w = (Ok a, w')
      /\ RNG.uniform n lo hi (Mem.gen w) = (Ok vs, Mem.gen w')
      /\ Mem.read_numbers w' a = Some vs
      /\ Mem.gen w' = advance (Z.to_nat n) (Mem.gen w)
      /\ Mem.preserves w w'
      /\ (forall b : Mem.array, Mem.allocated_in w b -> ~ Mem.aliases a b)
      /\ (forall (m : Z) (lo2 hi2 : R) (b : Mem.array) (w2 : Mem.world),
            Mem.uniform m lo2 hi2 w' = (Ok b, w2)
            \/ Mem.sphere m w' = (Ok b, w2) ->
            ~ Mem.aliases a b /\ Mem.read_numbers w2 a = Some vs))
  /\ (exists (a : Mem.array) (w' : Mem.world) (pts : list point),
      Mem.sphere n w = (Ok a, w')
      /\ RNG.sphere n (Mem.gen w) = (Ok pts, Mem.gen w')
      /\ Mem.read_points w' a = Some pts
      /\ Mem.gen w' = advance (Z.to_nat n + Z.to_nat n) (Mem.gen w)
      /\ Mem.preserves w w'
      /\ (forall b : Mem.array, Mem.allocated_in w b -> ~ Mem.aliases a b)
      /\ (forall (m : Z) (lo2 hi2 : R) (b : Mem.array) (w2 : Mem.world),
            Mem.uniform m lo2 hi2 w' = (Ok b, w2)
            \/ Mem.sphere m w' = (Ok b, w2) ->
            ~ Mem.aliases a b /\ Mem.read_points w2 a = Some pts))
  /\ (exists (self : Mem.addr) (w' : Mem.world),
      Mem.new_RNG w = (Ok self, w')
      /\ nth_error (Mem.heap w') self = Some (Mem.Instance [])
      /\ Mem.gen w' = Mem.gen w
      /\ Mem.preserves w w').
Proof.
  intros Hn. destruct w as [g h]. split; [|split].
  - eexists. eexists. eexists.
    split; [now apply mem_uniform_run|]. cbn [Mem.gen Mem.heap].
    split; [now apply uniform_ok|].
    assert (Hread : Mem.read_numbers
              {| Mem.gen := advance (Z.to_nat n) g;
                 Mem.heap := h ++ [Mem.Numbers
                   (map (fun i => lo + (hi - lo) * upcoming g i)
                        (seq 0 (Z.to_nat n)))] |}
              {| Mem.buffer := length h; Mem.transposed := false |}
            = Some (map (fun i => lo + (hi - lo) * upcoming g i)
                        (seq 0 (Z.to_nat n)))).
    { unfold Mem.read_numbers. cbn [Mem.heap Mem.buffer].
      now rewrite nth_error_snoc. }
    split; [exact Hread|]. split; [reflexivity|].
    split; [apply preserves_app|]. split.
    + intros b Hb. apply (fresh_not_aliased {| Mem.gen := g; Mem.heap := h |});
        [|exact Hb]. unfold Mem.fresh_in. cbn [Mem.heap Mem.buffer]. lia.
    + intros m lo2 hi2 b w2 Hcall.
      eapply later_call_apart in Hcall as [Hal Hp].
      * split; [exact Hal|]. eapply read_numbers_preserved; eassumption.
      * unfold Mem.allocated_in. cbn [Mem.heap Mem.buffer].
        rewrite length_app. simpl. lia.
  - eexists. eexists. eexists.
    split; [now apply mem_sphere_run|]. cbn [Mem.gen Mem.heap].
    split; [now apply sphere_ok|].
    assert (Hread : Mem.read_points
              {| Mem.gen := advance (Z.to_nat n) (advance (Z.to_nat n) g);
                 Mem.heap := h ++ sphere_cells n g |}
              {| Mem.buffer := (length h + 6)%nat; Mem.transposed := true |}
            = Some (T (sphere_to_cart (RNG.l_t (locals_of n g))
                                      (RNG.l_phi (locals_of n g))))).
    { unfold Mem.read_points. cbn [Mem.heap Mem.buffer Mem.transposed].
      rewrite nth_error_app2 by lia.
      replace (length h + 6 - length h)%nat with 6%nat by lia.
      reflexivity. }
    split; [exact Hread|]. split; [apply advance_advance|].
    split; [apply preserves_app|]. split.
    + intros b Hb. apply (fresh_not_aliased {| Mem.gen := g; Mem.heap := h |});
        [|exact Hb]. unfold Mem.fresh_in. cbn [Mem.heap Mem.buffer]. lia.
    + intros m lo2 hi2 b w2 Hcall.
      eapply later_call_apart in Hcall as [Hal Hp].
      * split; [exact Hal|]. eapply read_points_preserved; eassumption.
      * unfold Mem.allocated_in. cbn [Mem.heap Mem.buffer].
        rewrite length_app. simpl. lia.
  - eexists. eexists. split; [reflexivity|]. cbn [Mem.gen Mem.heap].
    split; [apply nth_error_snoc|]. split; [reflexivity|].
    apply preserves_app.
Qed.

Lemma calls_only_draw_and_allocate_witness :
  (0 <= 1)%Z /\
  exists (a : Mem.array) (w' : Mem.world) (pts : list point),
    Mem.sphere 1 {| Mem.gen := const_gen half_draw;
                    Mem.heap := [Mem.Instance []] |} = (Ok a, w')
    /\ Mem.read_points w' a = Some pts
    /\ nth_error (Mem.heap w') 0 = Some (Mem.Instance []).
Proof.
  assert (Hn : (0 <= 1)%Z) by lia.
  split; [exact Hn|].
  destruct (calls_only_draw_and_allocate 1 0.0 1.0
              {| Mem.gen := const_gen half_draw;
                 Mem.heap := [Mem.Instance []] |} Hn)
    as [_ [[a [w' [pts [Hrun [_ [Hread [_ [Hp _]]]]]]]] _]].
  exists a, w', pts. split; [exact Hrun|]. split; [exact Hread|].
  apply Hp. reflexivity.
Defined.

(** * Further properties of [RNG] *)

(** ** How calls compose *)

Lemma seq_from (j k : nat) :
  seq j k = map (fun i => (j + i)%nat) (seq 0 k).
Proof.
  revert j. induction k as [|k IH]; intros j; [reflexivity|].
  cbn [seq map]. rewrite Nat.add_0_r. f_equal.
  rewrite IH, <- seq_shift, map_map. apply map_ext. intros i. lia.
Qed.

Lemma map_seq_split {A : Type} (f : nat -> A) (j k : nat) :
  map f (seq 0 (j + k)) =
    map f (seq 0 j) ++ map (fun i => f (j + i)%nat) (seq 0 k).
Proof.
  rewrite seq_app, map_app. f_equal. cbn [Nat.add].
  now rewrite seq_from, map_map.
Qed.

(** X1: two calls of [uniform] in a row, of [m] and of [n] values with
    the same bounds, return between them the values of one call of
    [m + n] values, in the same order, and leave the generator in the
    same state. *)
Theorem uniform_then_uniform (m n : Z) (lo hi : R) (g : RandomState) :
  (0 <= m)%Z -> (0 <= n)%Z ->
  exists (a b : ndarray) (g1 g2 : RandomState),
    RNG.uniform m lo hi g = (Ok a, g1)
    /\ RNG.uniform n lo hi g1 = (Ok b, g2)
    /\ RNG.uniform (m + n) lo hi g = (Ok (a ++ b), g2).
Proof.
  intros Hm Hn. eexists. eexists. eexists. eexists.
  split; [now apply uniform_ok|]. split; [now apply uniform_ok|].
  rewrite uniform_ok by lia. rewrite Z2Nat.inj_add by assumption.
  rewrite advance_advance, map_seq_split. f_equal. f_equal. f_equal.
  apply map_ext. intros i. now rewrite upcoming_advance.
Qed.

Lemma uniform_then_uniform_witness :
  (0 <= 1)%Z /\ (0 <= 2)%Z /\
  exists (a b : ndarray) (g1 g2 : RandomState),
    RNG.uniform 1 0.0 1.0 (const_gen half_draw) = (Ok a, g1)
    /\ RNG.uniform 2 0.0 1.0 g1 = (Ok b, g2)
    /\ RNG.uniform 3 0.0 1.0 (const_gen half_draw) = (Ok (a ++ b), g2).
Proof.
  assert (Hm : (0 <= 1)%Z) by lia.
  assert (Hn : (0 <= 2)%Z) by lia.
  split; [exact Hm|]. split; [exact Hn|].
  exact (uniform_then_uniform 1 2 0.0 1.0 (const_gen half_draw) Hm Hn).
Defined.

(** X3: [uniform(n, lo, hi)] reads the next [n] draws of the generator
    and [sphere(n)] the next [2 n], and nothing else of it: from two
    generator states that agree on those draws the calls return the same
    values. *)
Theorem calls_read_next_draws_only (n : Z) (lo hi : R)
        (g1 g2 : RandomState) :
  (0 <= n)%Z ->
  ((forall i : nat, (i < Z.to_nat n)%nat ->
       draw_val (upcoming g1 i) = draw_val (upcoming g2 i)) ->
   exists (vs : ndarray) (g1' g2' : RandomState),
     RNG.uniform n lo hi g1 = (Ok vs, g1')
     /\ RNG.uniform n lo hi g2 = (Ok vs, g2'))
  /\ ((forall i : nat, (i < Z.to_nat n + Z.to_nat n)%nat ->
         draw_val (upcoming g1 i) = draw_val (upcoming g2 i)) ->
      exists (pts : list point) (g1' g2' : RandomState),
        RNG.sphere n g1 = (Ok pts, g1')
        /\ RNG.sphere n g2 = (Ok pts, g2')).
Proof.
  intros Hn. split; intros Hsame.
  - exists (map (fun i => lo + (hi - lo) * upcoming g1 i)
                (seq 0 (Z.to_nat n))),
           (advance (Z.to_nat n) g1), (advance (Z.to_nat n) g2).
    split; [now apply uniform_ok|].
    rewrite uniform_ok by exact Hn.
    apply (f_equal (fun x => (Ok x, advance (Z.to_nat n) g2))).
    apply map_ext_in. intros i Hi. apply in_seq in Hi.
    rewrite Hsame by lia. reflexivity.
  - exists (T (sphere_to_cart (RNG.l_t (locals_of n g1))
                              (RNG.l_phi (locals_of n g1)))),
           (advance (Z.to_nat n) (advance (Z.to_nat n) g1)),
           (advance (Z.to_nat n) (advance (Z.to_nat n) g2)).
    split; [now apply sphere_ok|].
    rewrite sphere_ok by exact Hn. rewrite !sphere_points.
    apply (f_equal (fun x =>
             (Ok x, advance (Z.to_nat n) (advance (Z.to_nat n) g2)))).
    apply map_ext_in. intros i Hi. apply in_seq in Hi.
    rewrite !upcoming_advance.
    rewrite (Hsame i) by lia. rewrite (Hsame (Z.to_nat n + i)%nat) by lia.
    reflexivity.
Qed.

Lemma calls_read_next_draws_only_witness :
  (0 <= 1)%Z /\
  exists (pts : list point) (g1' g2' : RandomState),
    RNG.sphere 1 (const_gen half_draw) = (Ok pts, g1')
    /\ RNG.sphere 1 (advance 5 (const_gen half_draw)) = (Ok pts, g2').
Proof.
  assert (Hn : (0 <= 1)%Z) by lia.
  split; [exact Hn|].
  destruct (calls_read_next_draws_only 1 0.0 1.0 (const_gen half_draw)
              (advance 5 (const_gen half_draw)) Hn) as [_ Hs].
  apply Hs. intros i _. reflexivity.
Defined.

(** ** The points of [sphere] across calls *)

(** X7: the [z] coordinates of [sphere(m)] are the first [m] of the [z]
    coordinates of [sphere(m + n)] run from the same generator state:
    both calls make them of the same polar draws. *)
Theorem sphere_z_prefix (m n : Z) (g : RandomState) :
  (0 <= m)%Z -> (0 <= n)%Z ->
  exists (small big : list point) (g1 g2 : RandomState),
    RNG.sphere m g = (Ok small, g1)
    /\ RNG.sphere (m + n) g = (Ok big, g2)
    /\ map coord_z small = firstn (Z.to_nat m) (map coord_z big).
Proof.
  intros Hm Hn. eexists. eexists. eexists. eexists.
  split; [now apply sphere_ok|]. split; [apply sphere_ok; lia|].
  rewrite !sphere_points, !map_map. cbn [point_of coord_z snd].
  rewrite Z2Nat.inj_add by assumption.
  rewrite map_seq_split, firstn_app, length_map, length_seq, Nat.sub_diag.
  cbn [firstn]. rewrite app_nil_r. symmetry. apply firstn_all2.
  now rewrite length_map, length_seq.
Qed.

Lemma sphere_z_prefix_witness :
  (0 <= 1)%Z /\ (0 <= 1)%Z /\
  exists (small big : list point) (g1 g2 : RandomState),
    RNG.sphere 1 (const_gen half_draw) = (Ok small, g1)
    /\ RNG.sphere 2 (const_gen half_draw) = (Ok big, g2)
    /\ map coord_z small = firstn 1 (map coord_z big).
Proof.
  assert (Hm : (0 <= 1)%Z) by lia.
  split; [exact Hm|]. split; [exact Hm|].
  exact (sphere_z_prefix 1 1 (const_gen half_draw) Hm Hm).
Defined.

(** ** The store when a call fails *)


